(** * wild-yak: the context-stack engine and its hook dispatch

    A shallow embedding of [src/wild-yak.js].  The engine is asynchronous
    JavaScript that mutates one session object and calls back into user
    code (topic [init]/[afterInit], hook [parse]/[handler], continuations).

    - JavaScript values are the inductive [Value]; objects that the engine
      compares by identity or mutates in place (contexts) live in a heap
      and are named by a reference [Ref].
    - Every engine function is a computation in the monad [M]: it threads
      the [World] (heap, session, session store, ghost trace) and ends in a
      value, a thrown error, or divergence.  A throw keeps the mutations
      made before it, as in JavaScript.
    - User code is a value of an abstract type [Code]; [run] gives its
      behaviour.  The engine is written once, for every [Code] and [run].
      [Prog] is a concrete [Code]: programs that call the exported engine
      API; [runProg] runs them with fuel. *)

Set Warnings "-register-all".
From stdpp Require Import base tactics option list strings pretty gmap.
From Stdlib Require Import ZArith.

(** ** JavaScript values *)

Inductive Value :=
| VUndefined
| VNull
| VBool (b : bool)
| VNum (n : Z)
| VStr (s : string)
| VArr (elems : list Value)
| VObj (fields : list (string * Value)).

(** ToBoolean: [undefined], [null], [false], [0] and the empty string are
    falsy; arrays and objects are truthy, the empty array included. *)
Definition truthy (v : Value) : bool :=
  match v with
  | VUndefined | VNull => false
  | VBool b => b
  | VNum n => negb (n =? 0)%Z
  | VStr s => negb (String.eqb s EmptyString)
  | VArr _ | VObj _ => true
  end.

(** [[].concat(v)]: an array argument is spread one level, anything else
    becomes the single element. *)
Definition concatValue (v : Value) : list Value :=
  match v with
  | VArr elems => elems
  | _ => [v]
  end.

(** [v instanceof Array ? v : [v]] *)
Definition asArray (v : Value) : list Value :=
  match v with
  | VArr elems => elems
  | _ => [v]
  end.

(** Property read [v.k]; a missing property reads as [undefined]. *)
Definition getField (k : string) (v : Value) : Value :=
  match v with
  | VObj fields =>
      match list_find (λ p, p.1 = k) fields with
      | Some (_, (_, x)) => x
      | None => VUndefined
      end
  | _ => VUndefined
  end.

(** ToString, as [RegExp.prototype.exec] applies it to its argument. *)
Fixpoint toString (v : Value) : string :=
  match v with
  | VUndefined => "undefined"
  | VNull => "null"
  | VBool true => "true"
  | VBool false => "false"
  | VNum n => pretty n
  | VStr s => s
  | VArr elems =>
      (fix join (l : list Value) : string :=
         match l with
         | [] => EmptyString
         | x :: rest =>
             let sx := match x with
                       | VUndefined | VNull => EmptyString
                       | _ => toString x
                       end in
             match rest with
             | [] => sx
             | _ => sx +:+ "," +:+ join rest
             end
         end) elems
  | VObj _ => "[object Object]"
  end.

(** ** Regular expressions

    A pattern is modelled by what [exec] answers on a string: the match
    array, or nothing ([null]).  Patterns carry no [g]/[y] flag, so [exec]
    is a function of the text only. *)

Record RegExp := { exec : string → option (list Value) }.

(** Does [pat] occur in [s]? *)
Fixpoint occurs (pat s : string) : bool :=
  String.prefix pat s ||
  match s with
  | EmptyString => false
  | String _ s' => occurs pat s'
  end.

(** The pattern [/pat/] for a [pat] free of metacharacters: it matches the
    first occurrence of [pat]; the match array holds the matched text. *)
Definition literal (pat : string) : RegExp :=
  {| exec := λ s, if occurs pat s then Some [VStr pat] else None |}.

(** ** Data model (the Flow types of [./types]) *)

(** A context object is named by its address in the heap; [!==] on
    contexts is inequality of references. *)
Definition Ref := nat.

Record ExternalSession := { sid : string; stype : string }.

(** [{ context, session }]; [context] is [undefined] when a continuation
    runs after the last context was popped. *)
Record State := { context : option Ref; session : ExternalSession }.

Record Hook (Code : Type) := {
  hname : string;
  parse : State → Value → Code;
  handler : State → Value → Code
}.
Arguments hname {Code} _.
Arguments parse {Code} _ _ _.
Arguments handler {Code} _ _ _.

Record Topic (Code : Type) := {
  name : string;
  isRoot : bool;
  init : Value → ExternalSession → Code;
  callbacks : option (list (State → Value → Code));
  hooks : list (Hook Code);
  afterInit : option (State → ExternalSession → Code)
}.
Arguments name {Code} _.
Arguments isRoot {Code} _.
Arguments init {Code} _ _ _.
Arguments callbacks {Code} _.
Arguments hooks {Code} _.
Arguments afterInit {Code} _.

(** A context.  Its [yakSession] field is the one session of the [World].
    [topic] and [parentTopic] are optional because the global context is
    built with [topic: globalTopic], which is [undefined] when no topic is
    named "global", and the first topic is entered with that [globalTopic]
    as parent. *)
Record Context (Code : Type) := {
  data : Value;
  topic : option (Topic Code);
  parentTopic : option (Topic Code);
  activeHooks : list string;
  disabledHooks : list string;
  cb : option (State → Value → Code)
}.
Arguments data {Code} _.
Arguments topic {Code} _.
Arguments parentTopic {Code} _.
Arguments activeHooks {Code} _.
Arguments disabledHooks {Code} _.
Arguments cb {Code} _.

Record YakSession (Code : Type) := {
  id : string;
  type : string;
  contexts : list Ref;
  virgin : bool;
  topics : list (Topic Code)
}.
Arguments id {Code} _.
Arguments type {Code} _.
Arguments contexts {Code} _.
Arguments virgin {Code} _.
Arguments topics {Code} _.

(** Ghost trace: what the engine called, in order. *)
Inductive Event :=
| EvInit (topicName : string)
| EvAfterInit (topicName : string)
| EvCb (popped : Ref)
| EvProcess (message : Value)
| EvParse (hookName : string)
| EvHandler (hookName : string).

Record World (Code : Type) := {
  heap : list (Context Code);
  yak : YakSession Code;
  db : gmap string (YakSession Code);
  trace : list Event
}.
Arguments heap {Code} _.
Arguments yak {Code} _.
Arguments db {Code} _.
Arguments trace {Code} _.

(** ** Outcomes and the engine monad *)

Inductive Outcome (A : Type) :=
| Ok (a : A)
| Throw (e : string)
| Diverge.
Arguments Ok {A} _.
Arguments Throw {A} _.
Arguments Diverge {A}.

Definition M (Code A : Type) : Type := World Code → Outcome A * World Code.

Definition ret {Code A} (a : A) : M Code A := λ w, (Ok a, w).

Definition throw {Code A} (e : string) : M Code A := λ w, (Throw e, w).

Definition bind {Code A B} (m : M Code A) (k : A → M Code B) : M Code B :=
  λ w, match m w with
       | (Ok a, w') => k a w'
       | (Throw e, w') => (Throw e, w')
       | (Diverge, w') => (Diverge, w')
       end.

Declare Scope yak_scope.
Delimit Scope yak_scope with yak.
Notation "x <- m ;; k" := (bind m (λ x, k))
  (at level 100, m at next level, k at level 200, right associativity) : yak_scope.
Notation "m ;; k" := (bind m (λ _, k))
  (at level 100, k at level 200, right associativity) : yak_scope.
Open Scope yak_scope.

Definition gets {Code A} (f : World Code → A) : M Code A := λ w, (Ok (f w), w).

Definition modify {Code} (f : World Code → World Code) : M Code unit :=
  λ w, (Ok tt, f w).

Definition setHeap {Code} (h : list (Context Code)) (w : World Code) : World Code :=
  {| heap := h; yak := yak w; db := db w; trace := trace w |}.

Definition setYak {Code} (y : YakSession Code) (w : World Code) : World Code :=
  {| heap := heap w; yak := y; db := db w; trace := trace w |}.

Definition setDb {Code} (d : gmap string (YakSession Code)) (w : World Code) : World Code :=
  {| heap := heap w; yak := yak w; db := d; trace := trace w |}.

Definition setTrace {Code} (t : list Event) (w : World Code) : World Code :=
  {| heap := heap w; yak := yak w; db := db w; trace := t |}.

Definition setContexts {Code} (l : list Ref) (y : YakSession Code) : YakSession Code :=
  {| id := id y; type := type y; contexts := l; virgin := virgin y; topics := topics y |}.

Definition setVirgin {Code} (b : bool) (y : YakSession Code) : YakSession Code :=
  {| id := id y; type := type y; contexts := contexts y; virgin := b; topics := topics y |}.

Definition setTopics {Code} (ts : list (Topic Code)) (y : YakSession Code) : YakSession Code :=
  {| id := id y; type := type y; contexts := contexts y; virgin := virgin y; topics := ts |}.

Definition setActiveHooks {Code} (l : list string) (c : Context Code) : Context Code :=
  {| data := data c; topic := topic c; parentTopic := parentTopic c;
     activeHooks := l; disabledHooks := disabledHooks c; cb := cb c |}.

Definition setDisabledHooks {Code} (l : list string) (c : Context Code) : Context Code :=
  {| data := data c; topic := topic c; parentTopic := parentTopic c;
     activeHooks := activeHooks c; disabledHooks := l; cb := cb c |}.

(** Ghost: record an engine event. *)
Definition log {Code} (e : Event) : M Code unit :=
  modify (λ w, setTrace (trace w ++ [e]) w).

(** A new object: it gets the next free address. *)
Definition alloc {Code} (c : Context Code) : M Code Ref :=
  λ w, (Ok (length (heap w)), setHeap (heap w ++ [c]) w).

(** Reading a property of a context.  An address that holds no object
    behaves like [undefined]: the property read is a TypeError. *)
Definition deref {Code} (r : Ref) : M Code (Context Code) :=
  λ w, match heap w !! r with
       | Some c => (Ok c, w)
       | None => (Throw "TypeError", w)
       end.

(** Writing a property of a context, in place. *)
Definition update {Code} (r : Ref) (f : Context Code → Context Code) : M Code unit :=
  c <- deref r ;;
  modify (λ w, setHeap (<[r := f c]> (heap w)) w).

(** ** Collaborators that are not part of [wild-yak.js] *)

(** Modelled from the spec: the channel formatters [./formatters/fb] and
    [./formatters/web] are missing; the message formatter contract is
    [parseIncomingMessage(raw) -> Message] and
    [mergeIncomingMessages(raw[]) -> Message]. *)
Record Formatter := {
  parseIncomingMessage : Value → Value;
  mergeIncomingMessages : list Value → Value
}.

(** Modelled from the spec: the session store [./lib/session] is missing;
    it is "a key-value-style store that loads/saves a session record by
    id", with the contract [get(id, topics) -> session|null] and
    [save(session) -> void]. *)
Definition libSession_get {Code} (sessionId : string) (topics : list (Topic Code))
  : M Code (option (YakSession Code)) :=
  gets (λ w, db w !! sessionId).

Definition libSession_save {Code} (y : YakSession Code) : M Code unit :=
  modify (λ w, setDb (<[id y := y]> (db w)) w).

(** ** Options of the builders and of [init] *)

Record TopicOptions (Code : Type) := {
  optIsRoot : option bool;
  optHooks : option (list (Hook Code));
  optCallbacks : option (list (State → Value → Code));
  optAfterInit : option (State → ExternalSession → Code)
}.
Arguments optIsRoot {Code} _.
Arguments optCallbacks {Code} _.
Arguments optHooks {Code} _.
Arguments optAfterInit {Code} _.

Record MessageOptions (Code : Type) := {
  strategy : string;
  messageParser : option (list Value → Code)
}.
Arguments strategy {Code} _.
Arguments messageParser {Code} _.

Record InitOptions (Code : Type) := {
  getSessionId : option (ExternalSession → string);
  getSessionType : option (ExternalSession → string);
  messageOptions : option (MessageOptions Code)
}.
Arguments getSessionId {Code} _.
Arguments getSessionType {Code} _.
Arguments messageOptions {Code} _.

(** ** The engine *)

Section Engine.
Variable Code : Type.

(** User code that returns [v] without calling out; [defPattern] builds
    its [parse] from it. *)
Variable codeRet : Value → Code.

(** The behaviour of a piece of user code, awaited to its end. *)
Variable run : Code → M Code Value.

Variables fbFormatter webFormatter : Formatter.

(** [const formatters = { facebook: fbFormatter, web: webFormatter }] *)
Definition formatters (key : string) : option Formatter :=
  if String.eqb key "facebook" then Some fbFormatter
  else if String.eqb key "web" then Some webFormatter
  else None.

(** *** Builders *)

Definition defTopic (name : string) (init : Value → ExternalSession → Code)
    (options : TopicOptions Code) : Topic Code :=
  {| name := name;
     isRoot := match optIsRoot options with Some b => b | None => false end;
     init := init;
     callbacks := optCallbacks options;
     hooks := match optHooks options with Some hs => hs | None => [] end;
     afterInit := optAfterInit options |}.

(** The [for] loop of the pattern hook's [parse], from index [i] on. *)
Fixpoint patternLoop (patterns : list RegExp) (i : nat) (message text : Value) : Value :=
  match patterns with
  | [] => VUndefined
  | p :: rest =>
      match exec p (toString text) with
      | Some matches =>
          VObj [("message", message); ("i", VNum (Z.of_nat i)); ("matches", VArr matches)]
      | None => patternLoop rest (S i) message text
      end
  end.

Definition patternParse (patterns : list RegExp) (message : Value) : Value :=
  if truthy message then patternLoop patterns 0 message (getField "text" message)
  else VUndefined.

Definition defPattern (topic : Topic Code) (name : string) (patterns : list RegExp)
    (handler : State → Value → Code) : Hook Code :=
  {| hname := name;
     parse := λ state message, codeRet (patternParse patterns message);
     handler := handler |}.

Definition defHook (topic : Topic Code) (name : string)
    (parse handler : State → Value → Code) : Hook Code :=
  {| hname := name; parse := parse; handler := handler |}.

(** *** The context stack *)

(** [yakSession.contexts.slice(-1)[0]] *)
Definition activeContext (yakSession : YakSession Code) : option Ref :=
  last (contexts yakSession).

(** [topics.filter(t => t.name === name)[0]] *)
Definition findTopic (nm : string) (topics : list (Topic Code)) : option (Topic Code) :=
  head (filter (λ t, name t = nm) topics).

(** [state.context], as an object whose properties are about to be read:
    on [undefined] the read is a TypeError. *)
Definition contextOf (state : State) : M Code Ref :=
  match context state with
  | Some r => ret r
  | None => throw "TypeError"
  end.

(** [yakSession.contexts.pop()] *)
Definition pop : M Code (option Ref) :=
  l <- gets (λ w, contexts (yak w)) ;;
  modify (λ w, setYak (setContexts (removelast l) (yak w)) w) ;;
  ret (last l).

Definition enterTopic (topic : option (Topic Code)) (state : State)
    (newTopic : Topic Code) (args : Value) (cb : option (State → Value → Code))
  : M Code Value :=
  currentContext <- contextOf state ;;
  contextOnStack <- gets (λ w, activeContext (yak w)) ;;
  if match contextOnStack with
     | Some top => bool_decide (currentContext ≠ top)
     | None => false
     end
  then throw "You can only enter a new context from the last context."
  else
    log (EvInit (name newTopic)) ;;
    d <- run (init newTopic args (session state)) ;;
    newContext <- alloc {| data := d; topic := Some newTopic; parentTopic := topic;
                           activeHooks := []; disabledHooks := []; cb := cb |} ;;
    (if isRoot newTopic
     then modify (λ w, setYak (setContexts [newContext] (yak w)) w)
     else modify (λ w, setYak (setContexts (contexts (yak w) ++ [newContext]) (yak w)) w)) ;;
    match afterInit newTopic with
    | Some f =>
        log (EvAfterInit (name newTopic)) ;;
        run (f {| context := Some newContext; session := session state |} (session state)) ;;
        ret VUndefined
    | None => ret VUndefined
    end.

Definition exitTopic (topic : option (Topic Code)) (state : State) (args : Value)
  : M Code Value :=
  currentContext <- contextOf state ;;
  top <- gets (λ w, activeContext (yak w)) ;;
  if bool_decide (Some currentContext ≠ top)
  then throw "You can only exit from the current context."
  else
    popped <- pop ;;
    match popped with
    | None => throw "TypeError"
    | Some lastContext =>
        c <- deref lastContext ;;
        match cb c with
        | Some f =>
            parentContext <- gets (λ w, activeContext (yak w)) ;;
            log (EvCb lastContext) ;;
            run (f {| context := parentContext; session := session state |} args)
        | None => ret VUndefined
        end
    end.

Definition disableHooksExcept (state : State) (list : list string) : M Code unit :=
  r <- contextOf state ;;
  update r (setActiveHooks list).

Definition disableHooks (state : State) (list : list string) : M Code unit :=
  r <- contextOf state ;;
  update r (setDisabledHooks list).

(** *** Dispatch *)

Definition runHook (hook : Hook Code) (state : State) (message : Value)
  : M Code (bool * Value) :=
  log (EvParse (hname hook)) ;;
  parseResult <- run (parse hook state message) ;;
  match parseResult with
  | VUndefined => ret (false, VUndefined)
  | _ =>
      log (EvHandler (hname hook)) ;;
      handlerResult <- run (handler hook state parseResult) ;;
      ret (true, handlerResult)
  end.

(** The loop over the hooks of the current topic. *)
Fixpoint localLoop (hs : list (Hook Code)) (state : State) (message : Value)
  : M Code (bool * Value) :=
  match hs with
  | [] => ret (false, VUndefined)
  | hook :: rest =>
      res <- runHook hook state message ;;
      if res.1 then ret res else localLoop rest state message
  end.

(** The guard of the global loop, on the lists the context holds when
    the hook's turn comes. *)
Definition eligible (c : Context Code) (hook : Hook Code) : bool :=
  bool_decide (hname hook ∈ activeHooks c)
  || (bool_decide (length (activeHooks c) = 0)
      && (bool_decide (length (disabledHooks c) = 0)
          || negb (bool_decide (hname hook ∈ disabledHooks c)))).

Definition mayRun (context : option Ref) (hook : Hook Code) : M Code bool :=
  match context with
  | None => ret true
  | Some r => c <- deref r ;; ret (eligible c hook)
  end.

(** The loop over the hooks of the global topic. *)
Fixpoint globalLoop (hs : list (Hook Code)) (context : option Ref) (globalContext : Ref)
    (session : ExternalSession) (message : Value) : M Code (bool * Value) :=
  match hs with
  | [] => ret (false, VUndefined)
  | hook :: rest =>
      go <- mayRun context hook ;;
      if go then
        res <- runHook hook
                 {| context := Some (match context with Some r => r | None => globalContext end);
                    session := session |} message ;;
        if res.1 then ret res
        else globalLoop rest context globalContext session message
      else globalLoop rest context globalContext session message
  end.

(** The two phases of [processMessage] (its lines up to the last):
    the local topic first, then, if nothing was handled, the global
    topic.  The answer is the pair [(handled, handlerResult)]. *)
Definition dispatch (session : ExternalSession) (message : Value)
    (globalTopic : option (Topic Code)) (globalContext : Ref) : M Code (bool * Value) :=
  context <- gets (λ w, activeContext (yak w)) ;;
  res <- match context with
         | Some r =>
             c <- deref r ;;
             match topic c with
             | None => throw "TypeError"
             | Some t =>
                 ts <- gets (λ w, topics (yak w)) ;;
                 match findTopic (name t) ts with
                 | None => throw "TypeError"
                 | Some currentTopic =>
                     localLoop (hooks currentTopic)
                       {| context := Some r; session := session |} message
                 end
             end
         | None => ret (false, VUndefined)
         end ;;
  if res.1 then ret res
  else match globalTopic with
       | None => throw "TypeError"
       | Some g => globalLoop (hooks g) context globalContext session message
       end.

(** [handlerResult ? [].concat(handlerResult) : []] *)
Definition normalize (handlerResult : Value) : list Value :=
  if truthy handlerResult then concatValue handlerResult else [].

Definition processMessage (session : ExternalSession) (message : Value)
    (globalTopic : option (Topic Code)) (globalContext : Ref) : M Code (list Value) :=
  log (EvProcess message) ;;
  res <- dispatch session message globalTopic globalContext ;;
  ret (normalize res.2).

(** *** The session handler *)

Definition formatter (session : ExternalSession) : M Code Formatter :=
  match formatters (stype session) with
  | Some f => ret f
  | None => throw "TypeError"
  end.

(** The [for] loop of the "single" strategy.  [result] is always an
    array, hence truthy: every pass overwrites [results]. *)
Fixpoint singleLoop (messages : list Value) (results : list Value)
    (session : ExternalSession) (globalTopic : option (Topic Code)) (globalContext : Ref)
  : M Code (list Value) :=
  match messages with
  | [] => ret results
  | _message :: rest =>
      f <- formatter session ;;
      result <- processMessage session (parseIncomingMessage f _message) globalTopic globalContext ;;
      singleLoop rest result session globalTopic globalContext
  end.

(** [messages.map(m => formatters[session.type].parseIncomingMessage(m))] *)
Fixpoint parseAll (messages : list Value) (session : ExternalSession) : M Code (list Value) :=
  match messages with
  | [] => ret []
  | m :: rest =>
      f <- formatter session ;;
      ps <- parseAll rest session ;;
      ret (parseIncomingMessage f m :: ps)
  end.

(** The first-contact block of the handler: clear [virgin] and enter
    the topic named "main", if there is one, from the global context. *)
Definition bootstrap (session : ExternalSession) (globalTopic : option (Topic Code))
    (globalContext : Ref) : M Code unit :=
  isVirgin <- gets (λ w, virgin (yak w)) ;;
  if isVirgin then
    modify (λ w, setYak (setVirgin false (yak w)) w) ;;
    ts <- gets (λ w, topics (yak w)) ;;
    match findTopic "main" ts with
    | Some mainTopic =>
        enterTopic globalTopic {| context := Some globalContext; session := session |}
          mainTopic VUndefined None ;;
        ret tt
    | None => ret tt
    end
  else ret tt.

(** The [switch] on [messageOptions.strategy]. *)
Definition processBatch (messageOptions : MessageOptions Code) (messages : list Value)
    (session : ExternalSession) (globalTopic : option (Topic Code)) (globalContext : Ref)
  : M Code (list Value) :=
  let s := strategy messageOptions in
  if String.eqb s "last" then
    f <- formatter session ;;
    processMessage session
      (parseIncomingMessage f (default VUndefined (last messages))) globalTopic globalContext
  else if String.eqb s "first" then
    f <- formatter session ;;
    processMessage session
      (parseIncomingMessage f (default VUndefined (head messages))) globalTopic globalContext
  else if String.eqb s "single" then
    singleLoop messages [] session globalTopic globalContext
  else if String.eqb s "merge" then
    f <- formatter session ;;
    processMessage session (mergeIncomingMessages f messages) globalTopic globalContext
  else if String.eqb s "custom" then
    parsedMessages <- parseAll messages session ;;
    match messageParser messageOptions with
    | None => throw "TypeError"
    | Some parser =>
        customMessage <- run (parser parsedMessages) ;;
        processMessage session customMessage globalTopic globalContext
    end
  else throw "Unknown message type.".

(** [init(allTopics, options)]: the handler it returns.  It is called
    [initYak] here, [init] being the field of a topic. *)
Definition initYak (allTopics : list (Topic Code)) (options : InitOptions Code)
  : ExternalSession → Value → M Code (list Value) :=
  let globalTopic := findTopic "global" allTopics in
  let topics := filter (λ t, name t ≠ "global") allTopics in
  let getSessionId := match getSessionId options with Some f => f | None => sid end in
  let getSessionType := match getSessionType options with Some f => f | None => stype end in
  let messageOptions :=
    match messageOptions options with
    | Some mo => mo
    | None => {| strategy := "last"; messageParser := None |}
    end in
  λ session _messages,
    let messages := asArray _messages in
    savedSession <- libSession_get (getSessionId session) topics ;;
    let yakSession :=
      match savedSession with
      | Some s => setTopics topics s
      | None => {| id := getSessionId session; type := getSessionType session;
                   contexts := []; virgin := true; topics := topics |}
      end in
    modify (setYak yakSession) ;;
    globalContext <- alloc {| data := VUndefined; topic := globalTopic; parentTopic := None;
                              activeHooks := []; disabledHooks := []; cb := None |} ;;
    bootstrap session globalTopic globalContext ;;
    results <- processBatch messageOptions messages session globalTopic globalContext ;;
    y <- gets yak ;;
    libSession_save y ;;
    ret results.

End Engine.

Arguments formatters fbFormatter webFormatter key : assert.
Arguments defTopic {Code} name init options.
Arguments patternLoop patterns i message text : assert.
Arguments patternParse patterns message : assert.
Arguments defPattern {Code} codeRet topic name patterns handler.
Arguments defHook {Code} topic name parse handler.
Arguments activeContext {Code} yakSession.
Arguments findTopic {Code} nm topics.
Arguments contextOf {Code} state.
Arguments pop {Code}.
Arguments enterTopic {Code} run topic state newTopic args cb.
Arguments exitTopic {Code} run topic state args.
Arguments disableHooksExcept {Code} state list.
Arguments disableHooks {Code} state list.
Arguments runHook {Code} run hook state message.
Arguments localLoop {Code} run hs state message.
Arguments eligible {Code} c hook.
Arguments mayRun {Code} context hook.
Arguments globalLoop {Code} run hs context globalContext session message.
Arguments dispatch {Code} run session message globalTopic globalContext.
Arguments processMessage {Code} run session message globalTopic globalContext.
Arguments formatter {Code} fbFormatter webFormatter session.
Arguments singleLoop {Code} run fbFormatter webFormatter messages results session
  globalTopic globalContext.
Arguments parseAll {Code} fbFormatter webFormatter messages session.
Arguments bootstrap {Code} run session globalTopic globalContext.
Arguments processBatch {Code} run fbFormatter webFormatter messageOptions messages session
  globalTopic globalContext.
Arguments initYak {Code} run fbFormatter webFormatter allTopics options.
Arguments enterTopic : simpl never.
Arguments exitTopic : simpl never.
Arguments runHook : simpl never.
Arguments dispatch : simpl never.
Arguments processMessage : simpl never.
Arguments bootstrap : simpl never.
Arguments processBatch : simpl never.
Arguments initYak : simpl never.

(** ** User code that calls the engine

    A piece of user code is a tree of calls to the exported API
    ([enterTopic], [exitTopic], [disableHooksExcept], [disableHooks],
    [activeContext]), each followed by what the code does with the answer;
    it ends by returning or throwing, and may catch what a part of it
    throws.  Closures are functions of Rocq, so a handler may build a
    continuation that remembers its own state. *)

Inductive Prog :=
| PRet (v : Value)
| PThrow (e : string)
| PEnterTopic (topic : option (Topic Prog)) (state : State) (newTopic : Topic Prog)
    (args : Value) (cb : option (State → Value → Prog)) (k : Value → Prog)
| PExitTopic (topic : option (Topic Prog)) (state : State) (args : Value) (k : Value → Prog)
| PDisableHooksExcept (state : State) (list : list string) (k : Prog)
| PDisableHooks (state : State) (list : list string) (k : Prog)
| PActiveContext (k : option Ref → Prog)
| PTry (body : Prog) (catch : string → Prog).

(** Running user code for at most [fuel] nested steps; the engine calls
    it makes run the engine, which runs user code again. *)
Fixpoint runProg (fuel : nat) (p : Prog) : M Prog Value :=
  match fuel with
  | 0 => λ w, (Diverge, w)
  | S n =>
      match p with
      | PRet v => ret v
      | PThrow e => throw e
      | PEnterTopic t st nt args cb k =>
          r <- enterTopic (runProg n) t st nt args cb ;; runProg n (k r)
      | PExitTopic t st args k =>
          r <- exitTopic (runProg n) t st args ;; runProg n (k r)
      | PDisableHooksExcept st l k =>
          disableHooksExcept st l ;; runProg n k
      | PDisableHooks st l k =>
          disableHooks st l ;; runProg n k
      | PActiveContext k =>
          c <- gets (λ w, activeContext (yak w)) ;; runProg n (k c)
      | PTry body catch =>
          λ w, match runProg n body w with
               | (Throw e, w1) => runProg n (catch e) w1
               | r => r
               end
      end
  end.


(** ** Vocabulary of the statements *)

(** The context [enterTopic] builds. *)
Definition newContext {Code} (topic : option (Topic Code)) (newTopic : Topic Code)
    (d : Value) (k : option (State → Value → Code)) : Context Code :=
  {| data := d; topic := Some newTopic; parentTopic := topic;
     activeHooks := []; disabledHooks := []; cb := k |}.

(** The world once the ghost event [e] is recorded. *)
Definition logged {Code} (e : Event) (w : World Code) : World Code :=
  setTrace (trace w ++ [e]) w.

(** The world once [enterTopic] has allocated the new context and put it
    on the stack, [w] being the world in which [init] returned [d]. *)
Definition install {Code} (topic : option (Topic Code)) (newTopic : Topic Code)
    (d : Value) (k : option (State → Value → Code)) (w : World Code) : World Code :=
  let r := length (heap w) in
  setYak (setContexts (if isRoot newTopic then [r] else contexts (yak w) ++ [r]) (yak w))
    (setHeap (heap w ++ [newContext topic newTopic d k]) w).

(** A well-formed stack: every entry is the address of an object, and no
    context is on the stack twice. *)
Definition valid {Code} (w : World Code) : Prop :=
  NoDup (contexts (yak w)) ∧ Forall (λ r, r < length (heap w)) (contexts (yak w)).

(** Events that entering and exiting topics can cause. *)
Definition userEvent (e : Event) : Prop :=
  match e with
  | EvInit _ | EvAfterInit _ | EvCb _ => True
  | _ => False
  end.

(** Events of [runHook]. *)
Definition hookEvent (e : Event) : Prop :=
  match e with
  | EvParse _ | EvHandler _ => True
  | _ => False
  end.

Global Instance hookEvent_dec e : Decision (hookEvent e) :=
  match e with
  | EvParse _ | EvHandler _ => left I
  | _ => right (λ H, H)
  end.

(** The event of [processMessage]. *)
Definition processEvent (e : Event) : Prop :=
  match e with
  | EvProcess _ => True
  | _ => False
  end.

Global Instance processEvent_dec e : Decision (processEvent e) :=
  match e with
  | EvProcess _ => left I
  | _ => right (λ H, H)
  end.

(** [Evolves P w w']: what every run of the engine and of user code keeps
    true between the world [w] it starts in and the world [w'] it leaves.
    - objects are never freed, and an object that existed in [w] is on the
      stack of [w'] only if it was on the stack of [w]: what gets pushed
      is always new;
    - the session's identity, its registry, its [virgin] flag and the
      store are left alone;
    - the trace grows by events that satisfy [P]; a continuation that ran
      belongs to a context that was on the stack if it existed in [w] and,
      when the stack was well-formed, is on it no more;
    - a well-formed stack stays well-formed. *)
Record Evolves {Code} (P : Event → Prop) (w w' : World Code) : Prop := {
  ev_heap : length (heap w) ≤ length (heap w');
  ev_old : ∀ r, r < length (heap w) → r ∈ contexts (yak w') → r ∈ contexts (yak w);
  ev_virgin : virgin (yak w') = virgin (yak w);
  ev_topics : topics (yak w') = topics (yak w);
  ev_id : id (yak w') = id (yak w);
  ev_db : db w' = db w;
  ev_trace : ∃ evs, trace w' = trace w ++ evs ∧ Forall P evs ∧
      ∀ r, EvCb r ∈ evs →
        (r < length (heap w) → r ∈ contexts (yak w)) ∧
        (valid w → (r ∉ contexts (yak w')) ∧ r < length (heap w'));
  ev_valid : valid w → valid w'
}.







(** The eligibility rule for global hooks, in the words of the
    specification: if [activeHooks] is non-empty the name must appear in
    it; else if [disabledHooks] is non-empty the name must not appear in
    it; else the hook is eligible. *)
Definition eligibleSpec {Code} (c : Context Code) (hook : Hook Code) : bool :=
  if bool_decide (activeHooks c ≠ []) then bool_decide (hname hook ∈ activeHooks c)
  else if bool_decide (disabledHooks c ≠ []) then bool_decide (hname hook ∉ disabledHooks c)
  else true.

(** ** A small bot, for the examples *)

Module Demo.

(** A formatter that takes the raw payload as the message; merging keeps
    the last payload. *)
Definition plain : Formatter :=
  {| parseIncomingMessage := λ raw, raw;
     mergeIncomingMessages := λ raws, default VUndefined (last raws) |}.

Definition text (s : string) : Value := VObj [("text", VStr s)].

Definition user : ExternalSession := {| sid := "u1"; stype := "web" |}.

(** A handler that answers [v]. *)
Definition answer (v : Value) : State → Value → Prog := λ _ _, PRet v.

Definition noOptions : TopicOptions Prog :=
  {| optIsRoot := None; optHooks := None; optCallbacks := None; optAfterInit := None |}.

Definition stub : Topic Prog := defTopic "stub" (λ _ _, PRet VUndefined) noOptions.

(** Root topic "main" with one pattern hook on [/hello/] answering "hi". *)
Definition greet : Hook Prog :=
  defPattern PRet stub "greet" [literal "hello"] (answer (VStr "hi")).

Definition mainTopic : Topic Prog :=
  defTopic "main" (λ _ _, PRet (VNum 0))
    {| optIsRoot := Some true; optHooks := Some [greet]; optCallbacks := None;
       optAfterInit := None |}.

(** The global topic; its hook "help" matches [/hello/] too. *)
Definition help : Hook Prog :=
  defPattern PRet stub "help" [literal "hello"] (answer (VStr "how can I help?")).

Definition globalTopic : Topic Prog :=
  defTopic "global" (λ _ _, PRet VUndefined)
    {| optIsRoot := None; optHooks := Some [help]; optCallbacks := None;
       optAfterInit := None |}.

(** A nested topic that keeps its arguments as data. *)
Definition sub : Topic Prog := defTopic "sub" (λ args _, PRet args) noOptions.

(** A root topic whose [afterInit] enters [sub] at once. *)
Definition eager : Topic Prog :=
  defTopic "eager" (λ _ _, PRet VNull)
    {| optIsRoot := Some true; optHooks := None; optCallbacks := None;
       optAfterInit := Some (λ state _, PEnterTopic None state sub VNull None PRet) |}.

(** A nested topic whose [afterInit] exits at once. *)
Definition fleeting : Topic Prog :=
  defTopic "fleeting" (λ _ _, PRet VNull)
    {| optIsRoot := None; optHooks := None; optCallbacks := None;
       optAfterInit := Some (λ state _, PExitTopic None state VNull PRet) |}.

(** A topic whose hook answers with the empty string. *)
Definition mute : Hook Prog :=
  defPattern PRet stub "mute" [literal "hello"] (answer (VStr EmptyString)).

Definition quiet : Topic Prog :=
  defTopic "quiet" (λ _ _, PRet VNull)
    {| optIsRoot := None; optHooks := Some [mute]; optCallbacks := None;
       optAfterInit := None |}.

(** The world before the first call: nothing stored, nothing allocated. *)
Definition w0 : World Prog :=
  {| heap := [];
     yak := {| id := EmptyString; type := EmptyString; contexts := []; virgin := true; topics := [] |};
     db := ∅; trace := [] |}.

Definition ctxMain : Context Prog :=
  {| data := VNum 0; topic := Some mainTopic; parentTopic := None;
     activeHooks := []; disabledHooks := []; cb := None |}.

(** [sub], entered from "main", will report its result back. *)
Definition ctxSub : Context Prog :=
  {| data := VNull; topic := Some sub; parentTopic := Some mainTopic;
     activeHooks := []; disabledHooks := []; cb := Some (λ _ result, PRet result) |}.

Definition ctxGlobal : Context Prog :=
  {| data := VUndefined; topic := Some globalTopic; parentTopic := None;
     activeHooks := []; disabledHooks := []; cb := None |}.


(** A context that lets through the global hook "a" only. *)
Definition ctxOnlyA : Context Prog :=
  {| data := VNull; topic := Some sub; parentTopic := None;
     activeHooks := ["a"]; disabledHooks := []; cb := None |}.

Definition session1 (stack : list Ref) (registry : list (Topic Prog)) : YakSession Prog :=
  {| id := "u1"; type := "web"; contexts := stack; virgin := false; topics := registry |}.

(** In the middle of a conversation: "main" below, [sub] on top. *)
Definition nested : World Prog :=
  {| heap := [ctxMain; ctxSub]; yak := session1 [0; 1] [mainTopic; sub];
     db := ∅; trace := [] |}.

(** "main" is active; the global context is object 1. *)
Definition talking : World Prog :=
  {| heap := [ctxMain; ctxGlobal]; yak := session1 [0] [mainTopic];
     db := ∅; trace := [] |}.


(** The active context allows the global hook "a" only. *)
Definition gated : World Prog :=
  {| heap := [ctxOnlyA]; yak := session1 [0] [sub]; db := ∅; trace := [] |}.

(** Global hooks "a" and "b"; both match every message. *)
Definition hookA : Hook Prog := defHook stub "a" (answer (VNum 1)) (answer (VStr "a")).
Definition hookB : Hook Prog := defHook stub "b" (answer (VNum 1)) (answer (VStr "b")).

Definition defaults : InitOptions Prog :=
  {| getSessionId := None; getSessionType := None; messageOptions := None |}.

Definition single : MessageOptions Prog :=
  {| strategy := "single"; messageParser := None |}.

Definition withOptions (mo : MessageOptions Prog) : InitOptions Prog :=
  {| getSessionId := None; getSessionType := None; messageOptions := Some mo |}.

Definition bot (fuel : nat) (allTopics : list (Topic Prog)) (options : InitOptions Prog)
  : ExternalSession → Value → M Prog (list Value) :=
  initYak (runProg fuel) plain plain allTopics options.

End Demo.

(** ** Vocabulary of the further properties *)

(** [kept w w']: every context object of [w] is still there in [w'], at
    the same address, with the same [data], [topic], [parentTopic] and
    continuation; its two hook lists may have changed. *)
Definition kept {Code} (w w' : World Code) : Prop :=
  ∀ r c, heap w !! r = Some c →
    ∃ c', heap w' !! r = Some c'
      ∧ data c' = data c ∧ topic c' = topic c
      ∧ parentTopic c' = parentTopic c ∧ cb c' = cb c.

(** The strategies that dispatch one message of the batch at a time. *)
Definition oneAtATime (s : string) : Prop := s = "last" ∨ s = "first" ∨ s = "single".


(** Every stored session has a well-formed stack. *)
Definition wellStored {Code} (w : World Code) : Prop :=
  ∀ k s, db w !! k = Some s →
    NoDup (contexts s) ∧ Forall (λ r, r < length (heap w)) (contexts s).


Definition anyEvent (e : Event) : Prop := True.

(** ** More of the small bot *)

Module Scenes.

(** A nested topic whose hook "bye" exits the topic with the result
    "done". *)
Definition bye : Hook Prog :=
  defPattern PRet Demo.stub "bye" [literal "bye"]
    (λ state _, PExitTopic None state (VStr "done") PRet).

Definition leaving : Topic Prog :=
  defTopic "leaving" (λ _ _, PRet VNull)
    {| optIsRoot := None; optHooks := Some [bye]; optCallbacks := None;
       optAfterInit := None |}.

(** [leaving], entered from "main", reports its result back. *)
Definition ctxLeaving : Context Prog :=
  {| data := VNull; topic := Some leaving; parentTopic := Some Demo.mainTopic;
     activeHooks := []; disabledHooks := []; cb := Some (λ _ result, PRet result) |}.

(** "main" below, [leaving] on top; the global context is object 2. *)
Definition parting : World Prog :=
  {| heap := [Demo.ctxMain; ctxLeaving; Demo.ctxGlobal];
     yak := Demo.session1 [0; 1] [Demo.mainTopic; leaving];
     db := ∅; trace := [] |}.

(** The topic of the active context is the global topic, which the
    registry never holds. *)
Definition astray : World Prog :=
  {| heap := [Demo.ctxGlobal]; yak := Demo.session1 [0] [Demo.mainTopic];
     db := ∅; trace := [] |}.

(** A conversation at rest: the session of "u1" is stored, "main" on its
    stack. *)
Definition stored : World Prog :=
  {| heap := [Demo.ctxMain]; yak := Demo.session1 [] [];
     db := {[ "u1" := Demo.session1 [0] [Demo.mainTopic] ]}; trace := [] |}.

Definition lastOnly : MessageOptions Prog :=
  {| strategy := "last"; messageParser := None |}.


(** A message that carries no text. *)
Definition ping : Value := VObj [("id", VNum 1)].

End Scenes.

(** * Proofs *)

(** ** Stepping through the monad *)

Lemma bind_Ok_inv {Code A B} (m : M Code A) (k : A → M Code B) w b w' :
  bind m k w = (Ok b, w') → ∃ a w1, m w = (Ok a, w1) ∧ k a w1 = (Ok b, w').
Proof.
  unfold bind. destruct (m w) as [[a|e|] w1]; [|done..]. intros H. by exists a, w1.
Qed.

(** [enterTopic] and [exitTopic], as functions of the world. *)

Section Unfold.
Context {Code : Type} (run : Code → M Code Value).

Lemma enterTopic_eq topic state newTopic args k w :
  enterTopic run topic state newTopic args k w =
  match context state with
  | None => (Throw "TypeError", w)
  | Some c =>
      if match activeContext (yak w) with
         | Some top => bool_decide (c ≠ top)
         | None => false
         end
      then (Throw "You can only enter a new context from the last context.", w)
      else
        match run (init newTopic args (session state)) (logged (EvInit (name newTopic)) w) with
        | (Ok d, w1) =>
            let w2 := install topic newTopic d k w1 in
            match afterInit newTopic with
            | Some f =>
                match run (f {| context := Some (length (heap w1)); session := session state |}
                             (session state)) (logged (EvAfterInit (name newTopic)) w2) with
                | (Ok _, w3) => (Ok VUndefined, w3)
                | (Throw e, w3) => (Throw e, w3)
                | (Diverge, w3) => (Diverge, w3)
                end
            | None => (Ok VUndefined, w2)
            end
        | (Throw e, w1) => (Throw e, w1)
        | (Diverge, w1) => (Diverge, w1)
        end
  end.
Proof.
  unfold enterTopic, contextOf, bind, gets. destruct (context state) as [c|]; [|done].
  cbn. destruct (match activeContext (yak w) with Some _ => _ | None => _ end); [done|].
  unfold log, modify, logged. cbn.
  destruct (run _ _) as [[d|e|] w1]; [|done..].
  unfold alloc, install. cbn.
  destruct (isRoot newTopic); cbn; destruct (afterInit newTopic); cbn; try done.
Qed.

Lemma exitTopic_eq topic state args w :
  exitTopic run topic state args w =
  match context state with
  | None => (Throw "TypeError", w)
  | Some c =>
      if bool_decide (Some c ≠ activeContext (yak w))
      then (Throw "You can only exit from the current context.", w)
      else
        let w1 := setYak (setContexts (removelast (contexts (yak w))) (yak w)) w in
        match heap w !! c with
        | None => (Throw "TypeError", w1)
        | Some ctx =>
            match cb ctx with
            | Some f =>
                run (f {| context := activeContext (yak w1); session := session state |} args)
                  (logged (EvCb c) w1)
            | None => (Ok VUndefined, w1)
            end
        end
  end.
Proof.
  unfold exitTopic, contextOf, bind, gets. destruct (context state) as [c|]; [|done].
  cbn. case_bool_decide as Hd; [done|].
  unfold pop, bind, gets, modify, deref. cbn.
  unfold activeContext in Hd. rewrite <- Hd. cbn.
  destruct (heap w !! c) as [ctx|]; [|done].
  by destruct (cb ctx).
Qed.
End Unfold.
(** ** The discipline of the stack *)

(** C1.  A call of [enterTopic] or [exitTopic] whose caller state holds a
    context that is not the top of the (non-empty) stack throws the
    stack-discipline error of that function and leaves the world as it
    was: same stack, no new context, and [init] is not called. *)
Theorem stale_caller_rejected {Code} (run : Code → M Code Value)
    topic state newTopic args k w c top :
  context state = Some c →
  activeContext (yak w) = Some top →
  c ≠ top →
  enterTopic run topic state newTopic args k w
    = (Throw "You can only enter a new context from the last context.", w)
  ∧ exitTopic run topic state args w
    = (Throw "You can only exit from the current context.", w).
Proof.
  intros Hc Htop Hne. rewrite enterTopic_eq, exitTopic_eq, Hc, Htop.
  rewrite !bool_decide_true; [done|congruence|done].
Qed.

Lemma stale_caller_rejected_witness :
  enterTopic (runProg 3) None {| context := Some 0; session := Demo.user |}
    Demo.sub VNull None Demo.nested
    = (Throw "You can only enter a new context from the last context.", Demo.nested)
  ∧ exitTopic (runProg 3) None {| context := Some 0; session := Demo.user |} VNull Demo.nested
    = (Throw "You can only exit from the current context.", Demo.nested).
Proof.
  apply (stale_caller_rejected (runProg 3) None {| context := Some 0; session := Demo.user |}
           Demo.sub VNull None Demo.nested 0 1); [reflexivity|reflexivity|lia].
Defined.

(** C5.  Exiting from the top context pops exactly that context: the
    stack is the rest, whose last element (or nothing) is the new top.
    A continuation stored on the popped context is called with the new
    top and the given arguments, and its outcome is the outcome of
    [exitTopic]; without a continuation [exitTopic] returns [undefined]. *)
Theorem exitTopic_pops_then_continues {Code} (run : Code → M Code Value)
    topic state args w c rest ctx :
  context state = Some c →
  contexts (yak w) = rest ++ [c] →
  heap w !! c = Some ctx →
  ∃ w1,
    contexts (yak w1) = rest
    ∧ activeContext (yak w1) = last rest
    ∧ heap w1 = heap w
    ∧ exitTopic run topic state args w =
        match cb ctx with
        | Some f => run (f {| context := last rest; session := session state |} args) w1
        | None => (Ok VUndefined, w1)
        end.
Proof.
  intros Hc Hst Hh.
  exists (match cb ctx with
          | Some _ => logged (EvCb c) (setYak (setContexts rest (yak w)) w)
          | None => setYak (setContexts rest (yak w)) w
          end).
  split_and!; [by destruct (cb ctx)..|].
  rewrite exitTopic_eq, Hc. unfold activeContext. rewrite !Hst, last_snoc, removelast_last.
  rewrite bool_decide_false by (intros ?; congruence).
  rewrite Hh. by destruct (cb ctx).
Qed.

Lemma exitTopic_pops_then_continues_witness :
  ∃ w1,
    contexts (yak w1) = [0]
    ∧ activeContext (yak w1) = Some 0
    ∧ heap w1 = heap Demo.nested
    ∧ exitTopic (runProg 3) None {| context := Some 1; session := Demo.user |}
        (VStr "done") Demo.nested
      = runProg 3 (PRet (VStr "done")) w1.
Proof.
  apply (exitTopic_pops_then_continues (runProg 3) None
           {| context := Some 1; session := Demo.user |} (VStr "done") Demo.nested
           1 [0] Demo.ctxSub); reflexivity.
Defined.

(** ** What every run preserves *)

Section EvolvesFacts.
Context {Code : Type} (P : Event → Prop).

Lemma Evolves_refl (w : World Code) : Evolves P w w.
Proof.
  split; try done. exists []. rewrite app_nil_r. split_and!; [done|constructor|].
  intros r Hr. by apply elem_of_nil in Hr.
Qed.

Lemma Evolves_trans (w1 w2 w3 : World Code) :
  Evolves P w1 w2 → Evolves P w2 w3 → Evolves P w1 w3.
Proof.
  intros [h1 o1 v1 t1 i1 d1 (e1 & Ht1 & Hp1 & Hc1) va1] [h2 o2 v2 t2 i2 d2 (e2 & Ht2 & Hp2 & Hc2) va2].
  split; try congruence.
  - lia.
  - intros r Hr Hin. apply o1; [done|]. apply o2; [lia|done].
  - exists (e1 ++ e2). split_and!.
    + by rewrite Ht2, Ht1, app_assoc.
    + by apply Forall_app.
    + intros r [Hin|Hin]%elem_of_app.
      * destruct (Hc1 r Hin) as [Ha Hb]. split; [done|]. intros Hv.
        destruct (Hb Hv) as [Hn Hl]. split; [|lia].
        intros Hin3. apply Hn. by apply o2.
      * destruct (Hc2 r Hin) as [Ha Hb]. split.
        -- intros Hr. apply o1; [done|]. apply Ha. lia.
        -- intros Hv. apply Hb. by apply va1.
  - auto.
Qed.

Lemma Evolves_weaken (Q : Event → Prop) (w w' : World Code) :
  (∀ e, Q e → P e) → Evolves Q w w' → Evolves P w w'.
Proof.
  intros HQ [h o v t i d (e & Ht & Hp & Hc) va]. split; try done.
  exists e. split_and!; [done| |done]. eapply Forall_impl; eauto.
Qed.
End EvolvesFacts.

Section EvolvesSteps.
Context {Code : Type} (P : Event → Prop).
Implicit Types w : World Code.

Lemma Evolves_logged e w :
  P e → (∀ r, e ≠ EvCb r) → Evolves P w (logged e w).
Proof.
  intros HP Hne. split; try done. exists [e]. split_and!; [done|by constructor|].
  intros r Hr%list_elem_of_singleton. by destruct (Hne r).
Qed.

Lemma Evolves_install topic newTopic d k w :
  Evolves P w (install topic newTopic d k w).
Proof.
  split; try done.
  - cbn. rewrite length_app. lia.
  - cbn. intros r Hr. destruct (isRoot newTopic).
    + intros ->%list_elem_of_singleton. lia.
    + intros [?| ->%list_elem_of_singleton]%elem_of_app; [done|lia].
  - exists []. rewrite app_nil_r. split_and!; [done|constructor|].
    intros r Hr. by apply elem_of_nil in Hr.
  - intros [Hnd Hlt]. split; cbn.
    + destruct (isRoot newTopic); [apply NoDup_singleton|].
      apply NoDup_app. split_and!; [done| |apply NoDup_singleton].
      intros r Hr ->%list_elem_of_singleton.
      rewrite Forall_forall in Hlt. specialize (Hlt _ Hr). lia.
    + rewrite length_app. cbn. destruct (isRoot newTopic).
      * constructor; [lia|constructor].
      * apply Forall_app. split; [|constructor; [lia|constructor]].
        eapply Forall_impl; [exact Hlt|]. cbn. lia.
Qed.

Lemma Evolves_popped w :
  Evolves P w (setYak (setContexts (removelast (contexts (yak w))) (yak w)) w).
Proof.
  assert (Hsub : ∀ r, r ∈ removelast (contexts (yak w)) → r ∈ contexts (yak w)).
  { intros r Hr. destruct (contexts (yak w)) as [|x l] using rev_ind; [done|].
    rewrite removelast_last in Hr. apply elem_of_app. by left. }
  split; try done.
  - cbn. auto.
  - exists []. rewrite app_nil_r. split_and!; [done|constructor|].
    intros r Hr. by apply elem_of_nil in Hr.
  - intros [Hnd Hlt]. split; cbn.
    + destruct (contexts (yak w)) as [|x l] using rev_ind; [done|].
      rewrite removelast_last. by apply NoDup_app in Hnd as (? & _ & _).
    + rewrite Forall_forall in Hlt |- *. auto.
Qed.

Lemma Evolves_popped_cb w c :
  P (EvCb c) →
  activeContext (yak w) = Some c →
  Evolves P w (logged (EvCb c) (setYak (setContexts (removelast (contexts (yak w))) (yak w)) w)).
Proof.
  intros HP Hc. pose proof (Evolves_popped w) as [h o v t i d _ va].
  split; try done. exists [EvCb c]. split_and!; [done|by constructor|].
  intros r Hr%list_elem_of_singleton. injection Hr as ->.
  apply last_Some in Hc as [l Heq]. cbn. rewrite Heq, removelast_last.
  split.
  - intros _. apply elem_of_app. right. by apply list_elem_of_singleton.
  - intros [Hnd Hlt]. rewrite Heq in Hnd, Hlt. split.
    + apply NoDup_app in Hnd as (_ & Hnd & _). intros Hin.
      apply (Hnd _ Hin). by apply list_elem_of_singleton.
    + apply Forall_app in Hlt as [_ Hlt]. by inversion Hlt.
Qed.

Lemma Evolves_setHeap_insert w r c :
  Evolves P w (setHeap (<[r := c]> (heap w)) w).
Proof.
  split; try done.
  - cbn. by rewrite length_insert.
  - exists []. rewrite app_nil_r. split_and!; [done|constructor|].
    intros x Hx. by apply elem_of_nil in Hx.
  - intros [Hnd Hlt]. split; cbn; [done|]. by rewrite length_insert.
Qed.

(** What the engine's own operations preserve, whatever user code they
    call, as long as that code preserves it. *)
Context (run : Code → M Code Value).
Hypothesis run_evolves : ∀ c w, Evolves P w (run c w).2.

Lemma run_evolves' c w o w' : run c w = (o, w') → Evolves P w w'.
Proof. intros H. pose proof (run_evolves c w) as He. by rewrite H in He. Qed.

Lemma enterTopic_evolves topic state newTopic args k w :
  P (EvInit (name newTopic)) → P (EvAfterInit (name newTopic)) →
  Evolves P w (enterTopic run topic state newTopic args k w).2.
Proof.
  intros HP1 HP2. rewrite enterTopic_eq.
  destruct (context state) as [c|]; [|apply Evolves_refl].
  destruct (match activeContext (yak w) with Some _ => _ | None => _ end);
    [apply Evolves_refl|].
  assert (H0 : Evolves P w (logged (EvInit (name newTopic)) w))
    by (by apply Evolves_logged).
  destruct (run _ _) as [[d|e|] w1] eqn:E1; cbn;
    apply run_evolves' in E1; pose proof (Evolves_trans _ _ _ _ H0 E1) as H1;
    [|done..].
  pose proof (Evolves_trans _ _ _ _ H1 (Evolves_install topic newTopic d k w1)) as H2.
  destruct (afterInit newTopic) as [f|]; [|done].
  assert (H3 : Evolves P (install topic newTopic d k w1)
                 (logged (EvAfterInit (name newTopic)) (install topic newTopic d k w1)))
    by (by apply Evolves_logged).
  destruct (run _ _) as [[d'|e|] w3] eqn:E3; cbn;
    apply run_evolves' in E3;
    exact (Evolves_trans _ _ _ _ H2 (Evolves_trans _ _ _ _ H3 E3)).
Qed.

Lemma exitTopic_evolves topic state args w :
  (∀ r, P (EvCb r)) →
  Evolves P w (exitTopic run topic state args w).2.
Proof.
  intros HP. rewrite exitTopic_eq.
  destruct (context state) as [c|]; [|apply Evolves_refl].
  case_bool_decide as Hd; [apply Evolves_refl|]. cbn.
  destruct (heap w !! c) as [ctx|]; [|apply Evolves_popped].
  destruct (cb ctx) as [f|]; [|apply Evolves_popped].
  destruct (run _ _) as [o w'] eqn:E. cbn. apply run_evolves' in E.
  refine (Evolves_trans _ _ _ _ _ E). by apply Evolves_popped_cb.
Qed.

Lemma disableHooksExcept_evolves state l w :
  Evolves P w (disableHooksExcept state l w).2.
Proof.
  unfold disableHooksExcept, contextOf, update, deref, bind, modify.
  destruct (context state) as [r|]; cbn; [|apply Evolves_refl].
  destruct (heap w !! r); cbn; [apply Evolves_setHeap_insert|apply Evolves_refl].
Qed.

Lemma disableHooks_evolves state l w :
  Evolves P w (disableHooks state l w).2.
Proof.
  unfold disableHooks, contextOf, update, deref, bind, modify.
  destruct (context state) as [r|]; cbn; [|apply Evolves_refl].
  destruct (heap w !! r); cbn; [apply Evolves_setHeap_insert|apply Evolves_refl].
Qed.
End EvolvesSteps.

(** User code only reaches the world through the engine. *)
Lemma runProg_evolves n p w : Evolves userEvent w (runProg n p w).2.
Proof.
  revert p w. induction n as [|n IH]; intros p w; [apply Evolves_refl|].
  destruct p as [v|e|t st nt args k0 k|t st args k|st l k|st l k|k|body catch];
    cbn [runProg]; unfold bind.
  - apply Evolves_refl.
  - apply Evolves_refl.
  - pose proof (enterTopic_evolves userEvent (runProg n) IH t st nt args k0 w I I) as H.
    destruct (enterTopic _ _ _ _ _ _ _) as [[r|e|] w1]; cbn in *; [|done..].
    eapply Evolves_trans; [exact H|apply IH].
  - pose proof (exitTopic_evolves userEvent (runProg n) IH t st args w (λ _, I)) as H.
    destruct (exitTopic _ _ _ _ _) as [[r|e|] w1]; cbn in *; [|done..].
    eapply Evolves_trans; [exact H|apply IH].
  - pose proof (disableHooksExcept_evolves userEvent st l w) as H.
    destruct (disableHooksExcept _ _ _) as [[r|e|] w1]; cbn in *; [|done..].
    eapply Evolves_trans; [exact H|apply IH].
  - pose proof (disableHooks_evolves userEvent st l w) as H.
    destruct (disableHooks _ _ _) as [[r|e|] w1]; cbn in *; [|done..].
    eapply Evolves_trans; [exact H|apply IH].
  - cbn. apply IH.
  - pose proof (IH body w) as H.
    destruct (runProg n body w) as [[r|e|] w1]; cbn in *; [done| |done].
    eapply Evolves_trans; [exact H|apply IH].
Qed.

Lemma runProg_evolves' (P : Event → Prop) n p w :
  (∀ e, userEvent e → P e) → Evolves P w (runProg n p w).2.
Proof. intros HP. eapply Evolves_weaken; [exact HP|apply runProg_evolves]. Qed.

Lemma valid_logged {Code} e (w : World Code) : valid w → valid (logged e w).
Proof. done. Qed.

(** ** Entering a topic *)

(** C6.  A call of [enterTopic] with a topic that is not a root topic,
    made from the top of the stack (or on an empty stack), whose [init]
    returned: the engine pushes exactly one context.  The stack in which
    [afterInit] starts, or in which the call returns when the topic has
    no [afterInit], is the stack [init] left plus the new context on top,
    one longer; the new context holds the data [init] returned, the
    entered topic, empty [activeHooks] and [disabledHooks], and the given
    continuation.  The outcome of the call is that of [afterInit]. *)
Theorem enterTopic_nonroot_pushes {Code} (run : Code → M Code Value)
    topic state newTopic args k w c d w1 :
  isRoot newTopic = false →
  context state = Some c →
  (activeContext (yak w) = None ∨ activeContext (yak w) = Some c) →
  run (init newTopic args (session state)) (logged (EvInit (name newTopic)) w) = (Ok d, w1) →
  ∃ r w2,
    r = length (heap w1)
    ∧ contexts (yak w2) = contexts (yak w1) ++ [r]
    ∧ length (contexts (yak w2)) = S (length (contexts (yak w1)))
    ∧ activeContext (yak w2) = Some r
    ∧ heap w2 !! r = Some {| data := d; topic := Some newTopic; parentTopic := topic;
                             activeHooks := []; disabledHooks := []; cb := k |}
    ∧ enterTopic run topic state newTopic args k w =
        match afterInit newTopic with
        | Some f =>
            (run (f {| context := Some r; session := session state |} (session state)) ;;
             ret VUndefined) w2
        | None => (Ok VUndefined, w2)
        end.
Proof.
  intros Hroot Hc Htop E1.
  set (wi := install topic newTopic d k w1).
  exists (length (heap w1)).
  exists (match afterInit newTopic with
          | Some _ => logged (EvAfterInit (name newTopic)) wi
          | None => wi
          end).
  assert (Hs : contexts (yak wi) = contexts (yak w1) ++ [length (heap w1)])
    by (cbn; by rewrite Hroot).
  split; [done|].
  split; [by destruct (afterInit newTopic)|].
  split; [destruct (afterInit newTopic); cbn [logged setTrace yak];
          by rewrite Hs, length_app, Nat.add_1_r|].
  split; [unfold activeContext; destruct (afterInit newTopic); cbn [logged setTrace yak];
          by rewrite Hs, last_snoc|].
  split; [destruct (afterInit newTopic); cbn; by rewrite lookup_app_r, Nat.sub_diag|].
  rewrite enterTopic_eq, Hc.
  assert (Hchk : match activeContext (yak w) with
                 | Some top => bool_decide (c ≠ top)
                 | None => false
                 end = false).
  { destruct Htop as [-> | ->]; [done|]. by rewrite bool_decide_false by (intros ?; done). }
  rewrite Hchk, E1. cbn. destruct (afterInit newTopic) as [f|]; [|done].
  unfold bind, ret. by destruct (run _ _) as [[]].
Qed.

Lemma enterTopic_nonroot_pushes_witness :
  ∃ r w2,
    r = 2
    ∧ contexts (yak w2) = [0; 1] ++ [r]
    ∧ length (contexts (yak w2)) = 3
    ∧ activeContext (yak w2) = Some r
    ∧ heap w2 !! r = Some {| data := VStr "x"; topic := Some Demo.sub; parentTopic := None;
                             activeHooks := []; disabledHooks := []; cb := None |}
    ∧ enterTopic (runProg 3) None {| context := Some 1; session := Demo.user |}
        Demo.sub (VStr "x") None Demo.nested = (Ok VUndefined, w2).
Proof.
  apply (enterTopic_nonroot_pushes (runProg 3) None
           {| context := Some 1; session := Demo.user |} Demo.sub (VStr "x") None
           Demo.nested 1 (VStr "x") (logged (EvInit "sub") Demo.nested));
    [reflexivity|reflexivity|right; reflexivity|reflexivity].
Defined.

(** Against C6 as stated: [Demo.fleeting] is not a root topic and the
    call succeeds, yet the stack is as long after the call as before it,
    and its top is the old top, not the context built for [fleeting]:
    [afterInit] has exited it. *)
Lemma enterTopic_nonroot_stack_may_not_grow :
  isRoot Demo.fleeting = false
  ∧ (enterTopic (runProg 5) None {| context := Some 1; session := Demo.user |}
       Demo.fleeting VNull None Demo.nested).1 = Ok VUndefined
  ∧ contexts (yak (enterTopic (runProg 5) None {| context := Some 1; session := Demo.user |}
                     Demo.fleeting VNull None Demo.nested).2) = [0; 1]
  ∧ contexts (yak Demo.nested) = [0; 1].
Proof. by vm_compute. Qed.

(** C2.  A call of [enterTopic] with a root topic, made from the top of
    a well-formed stack (or on an empty stack), whose [init] returned:
    the engine replaces the stack by the one new context.  The stack in
    which [afterInit] starts, or in which the call returns when the topic
    has no [afterInit], is exactly [[r]], [r] being the new context.  And
    in the whole call, [init] and [afterInit] included, no continuation of
    a context that the reset discarded is called. *)
Theorem enterTopic_root_replaces n topic state newTopic args k w c d w1 :
  isRoot newTopic = true →
  context state = Some c →
  (activeContext (yak w) = None ∨ activeContext (yak w) = Some c) →
  valid w →
  runProg n (init newTopic args (session state)) (logged (EvInit (name newTopic)) w)
    = (Ok d, w1) →
  ∃ r w2,
    r = length (heap w1)
    ∧ contexts (yak w2) = [r]
    ∧ heap w2 !! r = Some {| data := d; topic := Some newTopic; parentTopic := topic;
                             activeHooks := []; disabledHooks := []; cb := k |}
    ∧ enterTopic (runProg n) topic state newTopic args k w =
        match afterInit newTopic with
        | Some f =>
            (runProg n (f {| context := Some r; session := session state |} (session state)) ;;
             ret VUndefined) w2
        | None => (Ok VUndefined, w2)
        end
    ∧ ∃ evs,
        trace (enterTopic (runProg n) topic state newTopic args k w).2 = trace w ++ evs
        ∧ ∀ old, old ∈ contexts (yak w1) → EvCb old ∉ evs.
Proof.
  intros Hroot Hc Htop Hv E1.
  set (wi := install topic newTopic d k w1).
  exists (length (heap w1)).
  exists (match afterInit newTopic with
          | Some _ => logged (EvAfterInit (name newTopic)) wi
          | None => wi
          end).
  split; [done|].
  split; [destruct (afterInit newTopic); cbn; by rewrite Hroot|].
  split; [destruct (afterInit newTopic); cbn; by rewrite lookup_app_r, Nat.sub_diag|].
  assert (Heq : enterTopic (runProg n) topic state newTopic args k w =
        match afterInit newTopic with
        | Some f =>
            (runProg n (f {| context := Some (length (heap w1)); session := session state |}
                          (session state)) ;;
             ret VUndefined) (logged (EvAfterInit (name newTopic)) wi)
        | None => (Ok VUndefined, wi)
        end).
  { rewrite enterTopic_eq, Hc.
    assert (Hchk : match activeContext (yak w) with
                   | Some top => bool_decide (c ≠ top)
                   | None => false
                   end = false).
    { destruct Htop as [-> | ->]; [done|]. by rewrite bool_decide_false by (intros ?; done). }
    rewrite Hchk, E1. cbn. destruct (afterInit newTopic) as [f|]; [|done].
    unfold bind, ret. by destruct (runProg n _ _) as [[]]. }
  split; [by destruct (afterInit newTopic)|].
  (* during init *)
  pose proof (runProg_evolves n (init newTopic args (session state))
                (logged (EvInit (name newTopic)) w)) as Hinit.
  rewrite E1 in Hinit. cbn in Hinit.
  destruct Hinit as [_ _ _ _ _ _ (evs1 & Ht1 & _ & Hcb1) Hv1].
  specialize (Hv1 (valid_logged _ _ Hv)).
  assert (Hnot1 : ∀ old, old ∈ contexts (yak w1) → EvCb old ∉ evs1).
  { intros old Hold Hin. destruct (Hcb1 _ Hin) as [_ Hb].
    destruct (Hb (valid_logged _ _ Hv)) as [Hn _]. done. }
  assert (Hlt : ∀ old, old ∈ contexts (yak w1) → old < length (heap w1)).
  { intros old Hold. destruct Hv1 as [_ Hall]. rewrite Forall_forall in Hall. auto. }
  rewrite Heq. destruct (afterInit newTopic) as [f|].
  - pose proof (runProg_evolves n
        (f {| context := Some (length (heap w1)); session := session state |} (session state))
        (logged (EvAfterInit (name newTopic)) wi)) as Hafter.
    unfold bind, ret.
    destruct (runProg n _ (logged (EvAfterInit (name newTopic)) wi)) as [o3 w3].
    cbn in Hafter. destruct Hafter as [_ _ _ _ _ _ (evs3 & Ht3 & _ & Hcb3) _].
    exists (EvInit (name newTopic) :: evs1 ++ EvAfterInit (name newTopic) :: evs3).
    split.
    + assert (trace w3 = trace w ++
                EvInit (name newTopic) :: evs1 ++ EvAfterInit (name newTopic) :: evs3) as <-.
      { rewrite Ht3. cbn. rewrite Ht1. cbn. by rewrite <- !app_assoc. }
      by destruct o3.
    + intros old Hold Hin.
      apply elem_of_cons in Hin as [Hin|Hin]; [done|].
      apply elem_of_app in Hin as [Hin|Hin]; [by eapply Hnot1|].
      apply elem_of_cons in Hin as [Hin|Hin]; [done|].
      destruct (Hcb3 _ Hin) as [Ha _].
      specialize (Hlt _ Hold).
      assert (old ∈ contexts (yak (logged (EvAfterInit (name newTopic)) wi))) as Hin'.
      { apply Ha. cbn. rewrite length_app. lia. }
      cbn in Hin'. rewrite Hroot in Hin'. apply list_elem_of_singleton in Hin'. lia.
  - exists (EvInit (name newTopic) :: evs1). split.
    + cbn. rewrite Ht1. cbn. by rewrite <- app_assoc.
    + intros old Hold Hin.
      apply elem_of_cons in Hin as [Hin|Hin]; [done|]. by eapply Hnot1.
Qed.

Lemma enterTopic_root_replaces_witness :
  ∃ r w2,
    r = 2
    ∧ contexts (yak w2) = [r]
    ∧ heap w2 !! r = Some {| data := VNum 0; topic := Some Demo.mainTopic; parentTopic := None;
                             activeHooks := []; disabledHooks := []; cb := None |}
    ∧ enterTopic (runProg 3) None {| context := Some 1; session := Demo.user |}
        Demo.mainTopic VNull None Demo.nested = (Ok VUndefined, w2)
    ∧ ∃ evs,
        trace (enterTopic (runProg 3) None {| context := Some 1; session := Demo.user |}
                 Demo.mainTopic VNull None Demo.nested).2 = trace Demo.nested ++ evs
        ∧ ∀ old, old ∈ [0; 1] → EvCb old ∉ evs.
Proof.
  apply (enterTopic_root_replaces 3 None {| context := Some 1; session := Demo.user |}
           Demo.mainTopic VNull None Demo.nested 1 (VNum 0)
           (logged (EvInit "main") Demo.nested));
    [reflexivity|reflexivity|right; reflexivity| |reflexivity].
  split; [|repeat constructor].
  apply NoDup_cons. split; [|apply NoDup_singleton].
  intros H%list_elem_of_singleton. discriminate H.
Defined.

(** Against C2 as stated: [Demo.eager] is a root topic and the call
    succeeds, yet the stack after the call holds two contexts: the one
    built for [eager] and, above it, the one its [afterInit] entered. *)
Lemma enterTopic_root_stack_may_be_longer :
  isRoot Demo.eager = true
  ∧ (enterTopic (runProg 5) None {| context := Some 1; session := Demo.user |}
       Demo.eager VNull None Demo.nested).1 = Ok VUndefined
  ∧ contexts (yak (enterTopic (runProg 5) None {| context := Some 1; session := Demo.user |}
                     Demo.eager VNull None Demo.nested).2) = [2; 3].
Proof. by vm_compute. Qed.

(** ** Dispatch *)


Lemma no_process evs : Forall (λ e, ¬ processEvent e) evs → filter processEvent evs = [].
Proof.
  intros H. induction H as [|e evs He _ IH]; [done|]. by rewrite filter_cons_False.
Qed.

Lemma user_not_process e : userEvent e → ¬ processEvent e.
Proof. destruct e; cbn; tauto. Qed.


(** The hook events of a dispatch, when user code causes none. *)
Section Dispatch.
Context {Code : Type} (run : Code → M Code Value).
Hypothesis run_quiet : ∀ c w, ∃ evs,
  trace (run c w).2 = trace w ++ evs ∧ filter hookEvent evs = [].






Lemma mayRun_pure context (hook : Hook Code) w : (mayRun context hook w).2 = w.
Proof.
  unfold mayRun, bind, deref, ret. destruct context as [r|]; [|done].
  by destruct (heap w !! r).
Qed.





End Dispatch.

Section EvolvesDispatch.
Context {Code : Type} (P : Event → Prop) (run : Code → M Code Value).
Hypothesis run_evolves : ∀ c w, Evolves P w (run c w).2.
Hypothesis P_parse : ∀ h, P (EvParse h).
Hypothesis P_handler : ∀ h, P (EvHandler h).

Lemma bind_evolves {A B} (m : M Code A) (k : A → M Code B) w :
  Evolves P w (m w).2 → (∀ a w1, Evolves P w1 (k a w1).2) →
  Evolves P w (bind m k w).2.
Proof.
  intros Hm Hk. unfold bind. destruct (m w) as [[a|e|] w1]; cbn in *; [|done..].
  eapply Evolves_trans; [exact Hm|apply Hk].
Qed.

Lemma log_evolves e (w : World Code) :
  P e → (∀ r, e ≠ EvCb r) → Evolves P w (log e w).2.
Proof. intros. by apply Evolves_logged. Qed.

Lemma runHook_evolves hook state message w :
  Evolves P w (runHook run hook state message w).2.
Proof.
  unfold runHook. apply bind_evolves; [by apply log_evolves|]. intros _ w1.
  apply bind_evolves; [apply run_evolves|]. intros pr w2.
  assert (Evolves P w2 ((log (EvHandler (hname hook)) ;;
            handlerResult <- run (handler hook state pr) ;;
            ret (true, handlerResult)) w2).2).
  { apply bind_evolves; [by apply log_evolves|]. intros _ w3.
    apply bind_evolves; [apply run_evolves|]. intros. apply Evolves_refl. }
  destruct pr; first [apply Evolves_refl | done].
Qed.

Lemma localLoop_evolves hs state message w :
  Evolves P w (localLoop run hs state message w).2.
Proof.
  revert w. induction hs as [|hook rest IH]; intros w; [apply Evolves_refl|].
  cbn [localLoop]. apply bind_evolves; [apply runHook_evolves|]. intros res w1.
  destruct res.1; [apply Evolves_refl|apply IH].
Qed.

Lemma globalLoop_evolves hs context globalContext session message w :
  Evolves P w (globalLoop run hs context globalContext session message w).2.
Proof.
  revert w. induction hs as [|hook rest IH]; intros w; [apply Evolves_refl|].
  cbn [globalLoop]. apply bind_evolves.
  { rewrite mayRun_pure. apply Evolves_refl. }
  intros [] w1; [|apply IH].
  apply bind_evolves; [apply runHook_evolves|]. intros res w2.
  destruct res.1; [apply Evolves_refl|apply IH].
Qed.

Lemma dispatch_evolves session message globalTopic globalContext w :
  Evolves P w (dispatch run session message globalTopic globalContext w).2.
Proof.
  unfold dispatch. apply bind_evolves; [apply Evolves_refl|]. intros context w1.
  apply bind_evolves.
  - destruct context as [r|]; [|apply Evolves_refl].
    apply bind_evolves.
    { unfold deref. destruct (heap w1 !! r); apply Evolves_refl. }
    intros c w2. destruct (topic c) as [t|]; [|apply Evolves_refl].
    apply bind_evolves; [apply Evolves_refl|]. intros ts w3.
    destruct (findTopic (name t) ts); [apply localLoop_evolves|apply Evolves_refl].
  - intros res w2. destruct res.1; [apply Evolves_refl|].
    destruct globalTopic; [apply globalLoop_evolves|apply Evolves_refl].
Qed.

Lemma processMessage_trace session message globalTopic globalContext w :
  Evolves P (logged (EvProcess message) w)
    (processMessage run session message globalTopic globalContext w).2.
Proof.
  unfold processMessage, bind at 1, log, modify. cbn.
  apply bind_evolves; [apply dispatch_evolves|]. intros. apply Evolves_refl.
Qed.
End EvolvesDispatch.

Lemma localLoop_unhandled {Code} (run : Code → M Code Value) hs state message w res w' :
  localLoop run hs state message w = (Ok res, w') → res.1 = false → res.2 = VUndefined.
Proof.
  revert w. induction hs as [|hook rest IH]; intros w; cbn [localLoop].
  - by intros [= <- <-].
  - intros (r1 & w1 & H1 & H2)%bind_Ok_inv Hres.
    destruct r1.1 eqn:Hr1; [|by eapply IH].
    injection H2 as <- <-. congruence.
Qed.






Lemma eligible_spec {Code} (c : Context Code) (hook : Hook Code) :
  eligible c hook = eligibleSpec c hook.
Proof.
  unfold eligible, eligibleSpec.
  destruct (activeHooks c) as [|a l], (disabledHooks c) as [|b k]; cbn.
  - rewrite bool_decide_false by apply not_elem_of_nil. done.
  - rewrite (bool_decide_false (_ ∈ [])) by apply not_elem_of_nil. cbn.
    by rewrite bool_decide_not.
  - by rewrite orb_false_r.
  - by rewrite orb_false_r.
Qed.



(** C4.  The guard of the global loop is the eligibility rule of the
    specification.  With an active context [r], a global hook that the
    rule excludes is passed over: neither its [parse] nor its handler is
    called and the world is untouched; a hook that the rule admits is
    run; when the rule excludes every hook of the list, the loop ends
    unhandled in the world it started in.  Without an active context
    every global hook is run, in the global context. *)
Theorem global_hooks_gated {Code} (run : Code → M Code Value)
    (hook : Hook Code) rest r globalContext session message w c :
  heap w !! r = Some c →
  eligible c hook = eligibleSpec c hook
  ∧ globalLoop run (hook :: rest) (Some r) globalContext session message w =
      (if eligibleSpec c hook
       then (res <- runHook run hook {| context := Some r; session := session |} message ;;
             if res.1 then ret res
             else globalLoop run rest (Some r) globalContext session message) w
       else globalLoop run rest (Some r) globalContext session message w)
  ∧ (∀ hs, Forall (λ h, eligibleSpec c h = false) hs →
       globalLoop run hs (Some r) globalContext session message w
         = (Ok (false, VUndefined), w))
  ∧ globalLoop run (hook :: rest) None globalContext session message w =
      (res <- runHook run hook {| context := Some globalContext; session := session |} message ;;
       if res.1 then ret res
       else globalLoop run rest None globalContext session message) w.
Proof.
  intros Hc.
  assert (Hstep : ∀ h hs,
    globalLoop run (h :: hs) (Some r) globalContext session message w =
      (if eligibleSpec c h
       then (res <- runHook run h {| context := Some r; session := session |} message ;;
             if res.1 then ret res
             else globalLoop run hs (Some r) globalContext session message) w
       else globalLoop run hs (Some r) globalContext session message w)).
  { intros h hs. cbn [globalLoop]. unfold bind at 1. unfold mayRun, bind at 1, deref.
    rewrite Hc. cbn. rewrite eligible_spec. by destruct (eligibleSpec c h). }
  split; [apply eligible_spec|]. split; [apply Hstep|]. split; [|done].
  intros hs Hall. induction Hall as [|h hs Hh _ IH]; [done|].
  by rewrite Hstep, Hh.
Qed.

Lemma global_hooks_gated_witness :
  eligible Demo.ctxOnlyA Demo.hookB = eligibleSpec Demo.ctxOnlyA Demo.hookB
  ∧ globalLoop (runProg 3) [Demo.hookB; Demo.hookA] (Some 0) 1 Demo.user (Demo.text "x")
      Demo.gated
    = globalLoop (runProg 3) [Demo.hookA] (Some 0) 1 Demo.user (Demo.text "x") Demo.gated
  ∧ (∀ hs, Forall (λ h, eligibleSpec Demo.ctxOnlyA h = false) hs →
       globalLoop (runProg 3) hs (Some 0) 1 Demo.user (Demo.text "x") Demo.gated
         = (Ok (false, VUndefined), Demo.gated))
  ∧ globalLoop (runProg 3) [Demo.hookB; Demo.hookA] None 1 Demo.user (Demo.text "x")
      Demo.gated
    = (res <- runHook (runProg 3) Demo.hookB {| context := Some 1; session := Demo.user |}
                (Demo.text "x") ;;
       if res.1 then ret res
       else globalLoop (runProg 3) [Demo.hookA] None 1 Demo.user (Demo.text "x")) Demo.gated.
Proof.
  apply (global_hooks_gated (runProg 3) Demo.hookB [Demo.hookA] 0 1 Demo.user (Demo.text "x")
           Demo.gated Demo.ctxOnlyA); reflexivity.
Defined.




(** ** Pattern hooks *)


(** C9.  For the hook built by [defPattern] from [[/foo/, /bar/]] and a
    message whose text is "barfoo", [parse] returns the match of pattern
    index 0, the [/foo/] pattern, with the match array ["foo"]: [/foo/]
    comes first in the list and occurs in the text. *)
Theorem pattern_hook_barfoo_matches_index_0 {Code} (codeRet : Value → Code)
    topic nm handler state :
  parse (defPattern codeRet topic nm [literal "foo"; literal "bar"] handler) state
    (VObj [("text", VStr "barfoo")])
  = codeRet (VObj [("message", VObj [("text", VStr "barfoo")]); ("i", VNum 0);
                   ("matches", VArr [VStr "foo"])]).
Proof. reflexivity. Qed.

(** Against C9 as stated: the index that [parse] returns is 0, not 1. *)
Lemma pattern_hook_barfoo_not_index_1 :
  ∃ v,
    runProg 1 (parse (defPattern PRet Demo.stub "p" [literal "foo"; literal "bar"]
                        (Demo.answer VNull))
                 {| context := Some 0; session := Demo.user |} (Demo.text "barfoo")) Demo.w0
      = (Ok v, Demo.w0)
    ∧ getField "i" v = VNum 0
    ∧ getField "i" v ≠ VNum 1.
Proof. eexists. split; [reflexivity|]. split; [reflexivity|discriminate]. Qed.

(** ** The session handler *)

(** One dispatch: the message is logged, then only hooks and user code run. *)
Lemma processMessage_events n session message gt gc w :
  ∃ evs,
    trace (processMessage (runProg n) session message gt gc w).2
      = trace w ++ EvProcess message :: evs
    ∧ filter processEvent evs = []
    ∧ virgin (yak (processMessage (runProg n) session message gt gc w).2) = virgin (yak w).
Proof.
  pose proof (processMessage_trace (λ e, ¬ processEvent e) (runProg n)
    (λ c w, runProg_evolves' _ n c w user_not_process)
    (λ _ H, H) (λ _ H, H) session message gt gc w) as [_ _ Hv _ _ _ (evs & Ht & Hp & _) _].
  exists evs. split_and!; [|by apply no_process|done].
  rewrite Ht. cbn. by rewrite <- app_assoc.
Qed.

Lemma singleLoop_snoc {Code} (run : Code → M Code Value) fb web ms m r0 session gt gc w :
  singleLoop run fb web (ms ++ [m]) r0 session gt gc w =
  match singleLoop run fb web ms r0 session gt gc w with
  | (Ok r1, w1) =>
      match formatters fb web (stype session) with
      | Some f => processMessage run session (parseIncomingMessage f m) gt gc w1
      | None => (Throw "TypeError", w1)
      end
  | (Throw e, w1) => (Throw e, w1)
  | (Diverge, w1) => (Diverge, w1)
  end.
Proof.
  revert r0 w. induction ms as [|x ms IH]; intros r0 w; cbn [app singleLoop].
  - unfold bind, formatter, ret. destruct (formatters fb web (stype session)) as [f|]; [|done].
    by destruct (processMessage run _ _ _ _ _) as [[]].
  - unfold bind, formatter, ret.
    destruct (formatters fb web (stype session)) as [f|] eqn:Hf; [|done].
    destruct (processMessage run _ _ _ _ _) as [[r1|e|] w1]; [|done..].
    by rewrite IH.
Qed.

Lemma singleLoop_events n fb web ms r0 session gt gc w f :
  formatters fb web (stype session) = Some f →
  ∃ evs,
    trace (singleLoop (runProg n) fb web ms r0 session gt gc w).2 = trace w ++ evs
    ∧ virgin (yak (singleLoop (runProg n) fb web ms r0 session gt gc w).2) = virgin (yak w)
    ∧ (∀ r, (singleLoop (runProg n) fb web ms r0 session gt gc w).1 = Ok r →
         filter processEvent evs = (λ x, EvProcess (parseIncomingMessage f x)) <$> ms).
Proof.
  intros Hf. revert r0 w. induction ms as [|x ms IH]; intros r0 w; cbn [singleLoop].
  - exists []. by rewrite app_nil_r.
  - unfold bind, formatter. rewrite Hf. cbn.
    destruct (processMessage_events n session (parseIncomingMessage f x) gt gc w)
      as (evs1 & Ht1 & Hp1 & Hv1).
    destruct (processMessage (runProg n) session _ gt gc w) as [[r1|e|] w1]; cbn in *.
    2,3: exists (EvProcess (parseIncomingMessage f x) :: evs1); split_and!; done.
    destruct (IH r1 w1) as (evs2 & Ht2 & Hv2 & Hp2).
    exists (EvProcess (parseIncomingMessage f x) :: evs1 ++ evs2). split_and!.
    + rewrite Ht2, Ht1, <- !app_assoc. done.
    + congruence.
    + intros r Hr. rewrite filter_cons_True by done.
      by rewrite filter_app, Hp1, (Hp2 _ Hr).
Qed.



Lemma bootstrap_quiet n session gt gc w :
  ∃ evs, trace (bootstrap (runProg n) session gt gc w).2 = trace w ++ evs
    ∧ filter processEvent evs = [].
Proof.
  unfold bootstrap, bind, gets, modify. cbn.
  destruct (virgin (yak w)); cbn; [|by exists []; rewrite app_nil_r].
  destruct (findTopic "main" (topics (yak w))) as [mainTopic|];
    [|by exists []; rewrite app_nil_r].
  pose proof (enterTopic_evolves userEvent (runProg n) (runProg_evolves n) gt
                {| context := Some gc; session := session |} mainTopic VUndefined None
                (setYak (setVirgin false (yak w)) w) I I) as [_ _ _ _ _ _ (evs & Ht & Hp & _) _].
  exists evs. split.
  - by destruct (enterTopic _ _ _ _ _ _ _) as [[]].
  - apply no_process. eapply Forall_impl; [exact Hp|apply user_not_process].
Qed.





(** C10.  Under the "single" strategy, a call that returns on the batch
    [ms ++ [m]] has dispatched every message of the batch once, in batch
    order, and what it returns is what the dispatch of the last message
    [m] returned, the store being written right after it.  More
    generally the loop on [ms ++ [m]] is the loop on [ms] followed by the
    dispatch of [m], whose outcome, empty sequence included, replaces
    whatever the earlier messages produced. *)
Theorem single_strategy_answers_last
    n fb web allTopics options mo session ms m w results w' :
  messageOptions options = Some mo →
  strategy mo = "single" →
  initYak (runProg n) fb web allTopics options session (VArr (ms ++ [m])) w
    = (Ok results, w') →
  (∃ f gc evs w1 w2,
     formatters fb web (stype session) = Some f
     ∧ trace w' = trace w ++ evs
     ∧ filter processEvent evs = (λ x, EvProcess (parseIncomingMessage f x)) <$> (ms ++ [m])
     ∧ processMessage (runProg n) session (parseIncomingMessage f m)
         (findTopic "global" allTopics) gc w1 = (Ok results, w2)
     ∧ w' = setDb (<[id (yak w2) := yak w2]> (db w2)) w2)
  ∧ ∀ r0 gt gc w0,
      singleLoop (runProg n) fb web (ms ++ [m]) r0 session gt gc w0 =
      match singleLoop (runProg n) fb web ms r0 session gt gc w0 with
      | (Ok _, w1) =>
          match formatters fb web (stype session) with
          | Some f => processMessage (runProg n) session (parseIncomingMessage f m) gt gc w1
          | None => (Throw "TypeError", w1)
          end
      | (Throw e, w1) => (Throw e, w1)
      | (Diverge, w1) => (Diverge, w1)
      end.
Proof.
  intros Hmo Hs Hrun. split; [|intros; apply singleLoop_snoc].
  revert Hrun.
  unfold initYak, bind, libSession_get, libSession_save, gets, modify, alloc, ret. cbn.
  rewrite Hmo.
  set (w1 := setHeap _ (setYak _ w)).
  destruct (bootstrap_quiet n session (findTopic "global" allTopics) (length (heap w)) w1)
    as (evs1 & Ht1 & Hp1).
  destruct (bootstrap (runProg n) session _ _ w1) as [[[]|e|] w2]; [|done..].
  cbn in Ht1. unfold processBatch. rewrite Hs. cbn.
  rewrite singleLoop_snoc.
  destruct (formatters fb web (stype session)) as [f|] eqn:Hf.
  2: { destruct (singleLoop (runProg n) fb web ms [] session _ _ w2) as [[]]; done. }
  destruct (singleLoop_events n fb web ms [] session (findTopic "global" allTopics)
              (length (heap w)) w2 f Hf) as (evs2 & Ht2 & _ & Hp2).
  destruct (singleLoop (runProg n) fb web ms [] session _ _ w2) as [[r1|e|] w3]; [|done..].
  cbn in Ht2, Hp2. specialize (Hp2 _ eq_refl).
  destruct (processMessage_events n session (parseIncomingMessage f m)
              (findTopic "global" allTopics) (length (heap w)) w3) as (evs3 & Ht3 & Hp3 & _).
  destruct (processMessage (runProg n) session _ _ _ w3) as [[r|e|] w4] eqn:E4; [|done..].
  cbn in Ht3. intros [= <- <-].
  exists f, (length (heap w)), (evs1 ++ evs2 ++ EvProcess (parseIncomingMessage f m) :: evs3),
    w3, w4.
  split_and!; [done| | |done|done].
  - cbn. rewrite Ht3, Ht2, Ht1, <- !app_assoc. done.
  - rewrite !filter_app, Hp1, Hp2, filter_cons_True by done. rewrite Hp3.
    by rewrite fmap_app.
Qed.

Lemma single_strategy_answers_last_witness :
  ∃ f gc evs w1 w2,
    formatters Demo.plain Demo.plain "web" = Some f
    ∧ trace (Demo.bot 5 [Demo.mainTopic; Demo.globalTopic] (Demo.withOptions Demo.single)
               Demo.user (VArr [Demo.text "hello"; Demo.text "zzz"]) Demo.w0).2
      = trace Demo.w0 ++ evs
    ∧ filter processEvent evs
      = (λ x, EvProcess (parseIncomingMessage f x)) <$> [Demo.text "hello"; Demo.text "zzz"]
    ∧ processMessage (runProg 5) Demo.user (parseIncomingMessage f (Demo.text "zzz"))
        (Some Demo.globalTopic) gc w1 = (Ok [], w2)
    ∧ (Demo.bot 5 [Demo.mainTopic; Demo.globalTopic] (Demo.withOptions Demo.single)
         Demo.user (VArr [Demo.text "hello"; Demo.text "zzz"]) Demo.w0).2
      = setDb (<[id (yak w2) := yak w2]> (db w2)) w2.
Proof.
  apply (single_strategy_answers_last 5 Demo.plain Demo.plain
           [Demo.mainTopic; Demo.globalTopic] (Demo.withOptions Demo.single) Demo.single
           Demo.user [Demo.text "hello"] (Demo.text "zzz") Demo.w0 []
           (Demo.bot 5 [Demo.mainTopic; Demo.globalTopic] (Demo.withOptions Demo.single)
              Demo.user (VArr [Demo.text "hello"; Demo.text "zzz"]) Demo.w0).2);
    [reflexivity|reflexivity|].
  vm_compute. reflexivity.
Defined.

(** * Further properties of the engine *)

(** ** Looking a topic up *)

(** X1.  [findTopic] answers the first topic of the list that bears the
    name: nothing exactly when no topic of the list bears it, and [t]
    exactly when [t] is in the list, bears the name, and no topic before
    it does.  A later topic of the same name is never found. *)
Theorem findTopic_first_with_name {Code} nm (ts : list (Topic Code)) :
  (findTopic nm ts = None ↔ ∀ t, t ∈ ts → name t ≠ nm)
  ∧ ∀ t, findTopic nm ts = Some t ↔
      ∃ pre post, ts = pre ++ t :: post ∧ name t = nm ∧ ∀ x, x ∈ pre → name x ≠ nm.
Proof.
  unfold findTopic. induction ts as [|a ts [IHn IHs]].
  - split; [split; [intros _ t Ht; by apply elem_of_nil in Ht|done]|].
    intros t. split; [done|]. intros (pre & post & H & _). by destruct pre.
  - rewrite filter_cons. destruct (decide (name a = nm)) as [Ha|Ha]; cbn.
    + split.
      * split; [done|]. intros H. destruct (H a); [by left|done].
      * intros t. split.
        -- intros [= <-]. exists [], ts. split_and!; [done|done|].
           intros x Hx. by apply elem_of_nil in Hx.
        -- intros (pre & post & H & Hn & Hpre). destruct pre as [|b pre].
           ++ by injection H as ->.
           ++ injection H as -> _. destruct (Hpre b); [by left|done].
    + split.
      * rewrite IHn. split.
        -- intros H t [->|Ht]%elem_of_cons; auto.
        -- intros H t Ht. apply H. by right.
      * intros t. rewrite IHs. split.
        -- intros (pre & post & -> & Hn & Hpre). exists (a :: pre), post.
           split_and!; [done|done|]. intros x [->|Hx]%elem_of_cons; auto.
        -- intros (pre & post & H & Hn & Hpre). destruct pre as [|b pre].
           ++ injection H as -> _. done.
           ++ injection H as -> ->. exists pre, post. split_and!; [done|done|].
              intros x Hx. apply Hpre. by right.
Qed.

(** ** Pattern hooks *)

Lemma patternLoop_undefined_iff patterns i message text :
  patternLoop patterns i message text = VUndefined
  ↔ Forall (λ p, exec p (toString text) = None) patterns.
Proof.
  revert i. induction patterns as [|p ps IH]; intros i; cbn; [done|].
  destruct (exec p (toString text)) eqn:Hp.
  - split; [done|]. intros H. inversion H; congruence.
  - rewrite IH. split; [by constructor|]. by inversion 1.
Qed.




(** X3.  A truthy message that has no [text] property is matched as the
    text "undefined": [exec] converts its argument to a string.  The
    pattern hook declines such a message exactly when none of its
    patterns matches the string "undefined". *)
Theorem message_without_text_is_matched_as_undefined patterns message :
  truthy message = true →
  getField "text" message = VUndefined →
  patternParse patterns message = VUndefined
  ↔ Forall (λ p, exec p "undefined" = None) patterns.
Proof.
  intros Ht Hf. unfold patternParse. rewrite Ht, Hf. apply patternLoop_undefined_iff.
Qed.

Lemma message_without_text_is_matched_as_undefined_witness :
  patternParse [literal "def"] Scenes.ping = VUndefined
  ↔ Forall (λ p, exec p "undefined" = None) [literal "def"].
Proof.
  apply (message_without_text_is_matched_as_undefined [literal "def"] Scenes.ping);
    reflexivity.
Defined.



(** ** The stack discipline, further *)

(** X5.  Without a context in the caller's state, every API call that
    reads it fails with a TypeError and changes nothing: [enterTopic],
    [exitTopic], [disableHooksExcept] and [disableHooks].  And on an
    empty stack [exitTopic] always fails, whatever the caller's state,
    leaving the session as it was. *)
Theorem no_context_no_api_call {Code} (run : Code → M Code Value)
    topic state newTopic args k l w :
  (context state = None →
     enterTopic run topic state newTopic args k w = (Throw "TypeError", w)
     ∧ exitTopic run topic state args w = (Throw "TypeError", w)
     ∧ disableHooksExcept state l w = (Throw "TypeError", w)
     ∧ disableHooks state l w = (Throw "TypeError", w))
  ∧ (contexts (yak w) = [] →
     ∃ e, exitTopic run topic state args w = (Throw e, w)).
Proof.
  split.
  - intros Hc. rewrite enterTopic_eq, exitTopic_eq, Hc.
    unfold disableHooksExcept, disableHooks, contextOf, bind. by rewrite Hc.
  - intros He. rewrite exitTopic_eq. destruct (context state) as [c|]; [|by eexists].
    unfold activeContext. rewrite He. cbn. by eexists.
Qed.

(** X6.  A state serves for one [enterTopic] only.  Once a call of
    [enterTopic] made with [state] has returned (the topic having no
    [afterInit]), the context it pushed is the top of the stack, so a
    second [enterTopic] with the same [state], and an [exitTopic] with
    it, fail with their stack-discipline error and change nothing. *)
Theorem same_state_cannot_enter_twice n m topic state newTopic args k w c v w'
    topic2 newTopic2 args2 k2 :
  context state = Some c →
  c < length (heap w) →
  afterInit newTopic = None →
  enterTopic (runProg n) topic state newTopic args k w = (Ok v, w') →
  enterTopic (runProg m) topic2 state newTopic2 args2 k2 w'
    = (Throw "You can only enter a new context from the last context.", w')
  ∧ exitTopic (runProg m) topic2 state args2 w'
    = (Throw "You can only exit from the current context.", w').
Proof.
  intros Hc Hlt Hafter. rewrite enterTopic_eq, Hc, Hafter.
  destruct (match activeContext (yak w) with Some _ => _ | None => _ end); [done|].
  pose proof (runProg_evolves n (init newTopic args (session state))
                (logged (EvInit (name newTopic)) w)) as [Hh _ _ _ _ _ _ _].
  destruct (runProg n _ _) as [[d|e|] w1]; [|done..]. cbn in Hh.
  intros [= _ <-].
  assert (Htop : activeContext (yak (install topic newTopic d k w1)) = Some (length (heap w1))).
  { unfold activeContext. cbn. destruct (isRoot newTopic); [done|]. by rewrite last_snoc. }
  rewrite enterTopic_eq, exitTopic_eq, Hc, Htop.
  rewrite !bool_decide_true; [done| |]; [intros [= ?]|]; lia.
Qed.

Lemma same_state_cannot_enter_twice_witness :
  enterTopic (runProg 5) None {| context := Some 0; session := Demo.user |} Demo.quiet VNull None
    (enterTopic (runProg 5) None {| context := Some 0; session := Demo.user |}
       Demo.sub VNull None Demo.talking).2
    = (Throw "You can only enter a new context from the last context.",
       (enterTopic (runProg 5) None {| context := Some 0; session := Demo.user |}
          Demo.sub VNull None Demo.talking).2)
  ∧ exitTopic (runProg 5) None {| context := Some 0; session := Demo.user |} VNull
      (enterTopic (runProg 5) None {| context := Some 0; session := Demo.user |}
         Demo.sub VNull None Demo.talking).2
    = (Throw "You can only exit from the current context.",
       (enterTopic (runProg 5) None {| context := Some 0; session := Demo.user |}
          Demo.sub VNull None Demo.talking).2).
Proof.
  apply (same_state_cannot_enter_twice 5 5 None {| context := Some 0; session := Demo.user |}
           Demo.sub VNull None Demo.talking 0 VUndefined _ None Demo.quiet VNull None);
    [reflexivity|cbn; lia|reflexivity|].
  vm_compute. reflexivity.
Defined.

Lemma exitTopic_top {Code} (run : Code → M Code Value) topic state args w c rest ctx :
  context state = Some c →
  contexts (yak w) = rest ++ [c] →
  heap w !! c = Some ctx →
  exitTopic run topic state args w =
    match cb ctx with
    | Some f =>
        run (f {| context := last rest; session := session state |} args)
          (logged (EvCb c) (setYak (setContexts rest (yak w)) w))
    | None => (Ok VUndefined, setYak (setContexts rest (yak w)) w)
    end.
Proof.
  intros Hc Hst Hh.
  rewrite exitTopic_eq, Hc. unfold activeContext. rewrite !Hst, last_snoc, removelast_last.
  rewrite bool_decide_false by (intros ?; congruence).
  rewrite Hh. by destruct (cb ctx).
Qed.

(** X7.  Exiting undoes entering.  After [enterTopic] of a topic that
    is not a root topic and has no [afterInit], an [exitTopic] made from
    the context just pushed puts the stack back to what it was when
    [init] returned, and hands the result to the continuation given to
    [enterTopic], in a state whose context is the context that was active
    then; no context object is lost. *)
Theorem exit_undoes_enter {Code} (run : Code → M Code Value)
    topic state newTopic args k w c d w1 topic2 session2 result :
  isRoot newTopic = false →
  afterInit newTopic = None →
  context state = Some c →
  (activeContext (yak w) = None ∨ activeContext (yak w) = Some c) →
  run (init newTopic args (session state)) (logged (EvInit (name newTopic)) w) = (Ok d, w1) →
  ∃ w2 w3,
    enterTopic run topic state newTopic args k w = (Ok VUndefined, w2)
    ∧ contexts (yak w3) = contexts (yak w1)
    ∧ heap w3 = heap w2
    ∧ exitTopic run topic2 {| context := Some (length (heap w1)); session := session2 |}
        result w2 =
        match k with
        | Some f =>
            run (f {| context := activeContext (yak w1); session := session2 |} result) w3
        | None => (Ok VUndefined, w3)
        end.
Proof.
  intros Hroot Hafter Hc Htop E1.
  set (w2 := install topic newTopic d k w1).
  set (wp := setYak (setContexts (contexts (yak w1)) (yak w2)) w2).
  exists w2, (match k with Some _ => logged (EvCb (length (heap w1))) wp | None => wp end).
  split_and!.
  - rewrite enterTopic_eq, Hc.
    assert (Hchk : match activeContext (yak w) with
                   | Some top => bool_decide (c ≠ top)
                   | None => false
                   end = false).
    { destruct Htop as [-> | ->]; [done|]. by rewrite bool_decide_false by (intros ?; done). }
    by rewrite Hchk, E1, Hafter.
  - by destruct k.
  - by destruct k.
  - rewrite (exitTopic_top run topic2 _ result w2 (length (heap w1)) (contexts (yak w1))
               (newContext topic newTopic d k));
      [by destruct k|done|by cbn; rewrite Hroot|by cbn; rewrite lookup_app_r, Nat.sub_diag].
Qed.

Lemma exit_undoes_enter_witness :
  ∃ w2 w3,
    enterTopic (runProg 5) (Some Demo.mainTopic) {| context := Some 0; session := Demo.user |}
      Demo.sub VNull (Some (λ _ result, PRet result)) Demo.talking = (Ok VUndefined, w2)
    ∧ contexts (yak w3) = contexts (yak (logged (EvInit "sub") Demo.talking))
    ∧ heap w3 = heap w2
    ∧ exitTopic (runProg 5) (Some Demo.sub) {| context := Some 2; session := Demo.user |}
        (VStr "done") w2 =
      runProg 5 (PRet (VStr "done")) w3.
Proof.
  apply (exit_undoes_enter (runProg 5) (Some Demo.mainTopic)
           {| context := Some 0; session := Demo.user |} Demo.sub VNull
           (Some (λ _ result, PRet result)) Demo.talking 0 VNull
           (logged (EvInit "sub") Demo.talking) (Some Demo.sub) Demo.user (VStr "done"));
    [reflexivity|reflexivity|reflexivity|right; reflexivity|reflexivity].
Defined.

(** X8.  A context is exited once.  On a well-formed stack, after
    [exitTopic] from the top context [c], whatever its continuation did
    and however it ended, [c] is not on the stack any more; a second
    [exitTopic] with the same state fails with the stack-discipline error
    and changes nothing, the stack being empty or not. *)
Theorem context_exits_only_once n m topic state args w c topic2 args2 :
  valid w →
  context state = Some c →
  activeContext (yak w) = Some c →
  let w' := (exitTopic (runProg n) topic state args w).2 in
  (c ∉ contexts (yak w'))
  ∧ exitTopic (runProg m) topic2 state args2 w'
    = (Throw "You can only exit from the current context.", w').
Proof.
  intros Hv Hc Htop w'.
  assert (Hnot : c ∉ contexts (yak w')).
  { subst w'. rewrite exitTopic_eq, Hc, Htop.
    rewrite bool_decide_false by (intros ?; done). cbn zeta.
    destruct Hv as [Hnd Hlt]. apply last_Some in Htop as [rest Hrest].
    rewrite Hrest in Hnd, Hlt |- *. rewrite removelast_last.
    assert (Hc_rest : c ∉ rest).
    { apply NoDup_app in Hnd as (_ & Hnd & _). intros Hin.
      apply (Hnd _ Hin). by apply list_elem_of_singleton. }
    assert (Hc_lt : c < length (heap w)).
    { apply Forall_app in Hlt as [_ Hlt]. by inversion Hlt. }
    destruct (heap w !! c) as [ctx|]; [|done].
    destruct (cb ctx) as [f|]; [|done].
    pose proof (runProg_evolves n
      (f {| context := activeContext (yak (setYak (setContexts rest (yak w)) w));
            session := session state |} args)
      (logged (EvCb c) (setYak (setContexts rest (yak w)) w))) as [_ Hold _ _ _ _ _ _].
    intros Hin. apply Hc_rest. by apply (Hold c Hc_lt). }
  split; [done|].
  rewrite exitTopic_eq, Hc. rewrite bool_decide_true; [done|].
  intros Heq. symmetry in Heq. apply last_Some in Heq as [rest Hrest].
  apply Hnot. rewrite Hrest. apply elem_of_app. right. by apply list_elem_of_singleton.
Qed.

Lemma valid_nested : valid Demo.nested.
Proof.
  split; [|repeat constructor].
  apply NoDup_cons. split; [|apply NoDup_singleton].
  intros H%list_elem_of_singleton. discriminate H.
Defined.

Lemma valid_parting : valid Scenes.parting.
Proof.
  split; [|repeat constructor].
  apply NoDup_cons. split; [|apply NoDup_singleton].
  intros H%list_elem_of_singleton. discriminate H.
Defined.

Lemma context_exits_only_once_witness :
  (1 ∉ contexts (yak (exitTopic (runProg 5) None {| context := Some 1; session := Demo.user |}
                        (VStr "done") Demo.nested).2))
  ∧ exitTopic (runProg 5) None {| context := Some 1; session := Demo.user |} VNull
      (exitTopic (runProg 5) None {| context := Some 1; session := Demo.user |}
         (VStr "done") Demo.nested).2
    = (Throw "You can only exit from the current context.",
       (exitTopic (runProg 5) None {| context := Some 1; session := Demo.user |}
          (VStr "done") Demo.nested).2).
Proof.
  apply (context_exits_only_once 5 5 None {| context := Some 1; session := Demo.user |}
           (VStr "done") Demo.nested 1 None VNull);
    [exact valid_nested|reflexivity|reflexivity].
Defined.

(** ** The two hook lists *)

(** X9.  [disableHooksExcept] and [disableHooks] write one list each of
    the caller's context and nothing else: called one after the other, in
    either order, they leave the same world, in which only that context
    differs, by its two lists.  For the global hooks that follow, a
    non-empty allow list then decides alone; the deny list counts only
    when the allow list is empty; two empty lists let every hook
    through. *)
Theorem allow_list_overrides_deny_list {Code} (state : State) (allow deny : list string)
    (w : World Code) r c :
  context state = Some r →
  heap w !! r = Some c →
  ∃ w',
    (disableHooksExcept state allow ;; disableHooks state deny) w = (Ok tt, w')
    ∧ (disableHooks state deny ;; disableHooksExcept state allow) w = (Ok tt, w')
    ∧ yak w' = yak w
    ∧ length (heap w') = length (heap w)
    ∧ (∀ r', r' ≠ r → heap w' !! r' = heap w !! r')
    ∧ ∃ c',
        heap w' !! r = Some c'
        ∧ activeHooks c' = allow ∧ disabledHooks c' = deny
        ∧ data c' = data c ∧ cb c' = cb c
        ∧ ∀ hook : Hook Code,
            eligible c' hook =
              match allow, deny with
              | _ :: _, _ => bool_decide (hname hook ∈ allow)
              | [], _ :: _ => bool_decide (hname hook ∉ deny)
              | [], [] => true
              end.
Proof.
  intros Hc Hh.
  assert (Hlt : r < length (heap w)) by (by eapply lookup_lt_Some).
  exists (setHeap (<[r := setDisabledHooks deny (setActiveHooks allow c)]> (heap w)) w).
  unfold disableHooksExcept, disableHooks, contextOf, update, deref, bind, modify, ret.
  rewrite Hc. cbn. rewrite Hh. cbn. rewrite !list_lookup_insert_eq by done. cbn.
  rewrite !list_insert_insert_eq.
  split_and!; [done|done|done|by rewrite length_insert| |].
  - intros r' Hne. by rewrite list_lookup_insert_ne.
  - eexists. split; [reflexivity|]. split_and!; [done..|].
    intros hook. rewrite eligible_spec. unfold eligibleSpec. cbn.
    destruct allow, deny; done.
Qed.

Lemma allow_list_overrides_deny_list_witness :
  ∃ w' : World Prog,
    (disableHooksExcept {| context := Some 0; session := Demo.user |} ["a"] ;;
     disableHooks {| context := Some 0; session := Demo.user |} ["a"; "b"]) Demo.talking
      = (Ok tt, w')
    ∧ (disableHooks {| context := Some 0; session := Demo.user |} ["a"; "b"] ;;
       disableHooksExcept {| context := Some 0; session := Demo.user |} ["a"]) Demo.talking
      = (Ok tt, w')
    ∧ yak w' = yak Demo.talking
    ∧ length (heap w') = length (heap Demo.talking)
    ∧ (∀ r', r' ≠ 0 → heap w' !! r' = heap Demo.talking !! r')
    ∧ ∃ c',
        heap w' !! 0 = Some c'
        ∧ activeHooks c' = ["a"] ∧ disabledHooks c' = ["a"; "b"]
        ∧ data c' = data Demo.ctxMain ∧ cb c' = cb Demo.ctxMain
        ∧ ∀ hook : Hook Prog, eligible c' hook = bool_decide (hname hook ∈ ["a"]).
Proof.
  apply (allow_list_overrides_deny_list {| context := Some 0; session := Demo.user |}
           ["a"] ["a"; "b"] Demo.talking 0 Demo.ctxMain); reflexivity.
Defined.

(** ** What the engine keeps *)

Section Kept.
Context {Code : Type} (run : Code → M Code Value).
Hypothesis run_kept : ∀ code w, kept w (run code w).2.

Lemma kept_refl (w : World Code) : kept w w.
Proof. intros r c Hr. by exists c. Qed.

Lemma kept_trans (w1 w2 w3 : World Code) : kept w1 w2 → kept w2 w3 → kept w1 w3.
Proof.
  intros H1 H2 r c Hr.
  destruct (H1 r c Hr) as (c' & Hr' & ? & ? & ? & ?).
  destruct (H2 r c' Hr') as (c'' & Hr'' & ? & ? & ? & ?).
  exists c''. split_and!; congruence.
Qed.

Lemma kept_same_heap (w w' : World Code) : heap w' = heap w → kept w w'.
Proof. intros He r c Hr. exists c. by rewrite He. Qed.

Lemma kept_install topic newTopic d k (w : World Code) :
  kept w (install topic newTopic d k w).
Proof. intros r c Hr. exists c. cbn. split_and!; [by apply lookup_app_l_Some|done..]. Qed.

Lemma kept_hooks (f : Context Code → Context Code) r (w : World Code) c :
  heap w !! r = Some c →
  data (f c) = data c → topic (f c) = topic c →
  parentTopic (f c) = parentTopic c → cb (f c) = cb c →
  kept w (setHeap (<[r := f c]> (heap w)) w).
Proof.
  intros Hc ? ? ? ? r' c' Hr'. cbn. destruct (decide (r' = r)) as [->|Hne].
  - exists (f c). rewrite list_lookup_insert_eq by (by eapply lookup_lt_Some).
    assert (c' = c) as -> by congruence. done.
  - exists c'. by rewrite list_lookup_insert_ne.
Qed.

Lemma disableHooksExcept_kept state l (w : World Code) :
  kept w (disableHooksExcept state l w).2.
Proof.
  unfold disableHooksExcept, contextOf, update, deref, bind, modify.
  destruct (context state) as [r|]; cbn; [|apply kept_refl].
  destruct (heap w !! r) as [c|] eqn:Hc; cbn; [|apply kept_refl].
  by apply (kept_hooks (setActiveHooks l)).
Qed.

Lemma disableHooks_kept state l (w : World Code) :
  kept w (disableHooks state l w).2.
Proof.
  unfold disableHooks, contextOf, update, deref, bind, modify.
  destruct (context state) as [r|]; cbn; [|apply kept_refl].
  destruct (heap w !! r) as [c|] eqn:Hc; cbn; [|apply kept_refl].
  by apply (kept_hooks (setDisabledHooks l)).
Qed.

Lemma bind_kept {A B} (m : M Code A) (k : A → M Code B) w :
  kept w (m w).2 → (∀ a w1, kept w1 (k a w1).2) → kept w (bind m k w).2.
Proof.
  intros Hm Hk. unfold bind. destruct (m w) as [[a|e|] w1]; cbn in *; [|done..].
  eapply kept_trans; [exact Hm|apply Hk].
Qed.

Lemma run_kept' code w o w' : run code w = (o, w') → kept w w'.
Proof. intros H. pose proof (run_kept code w) as Hk. by rewrite H in Hk. Qed.

Lemma enterTopic_kept topic state newTopic args k w :
  kept w (enterTopic run topic state newTopic args k w).2.
Proof.
  rewrite enterTopic_eq.
  destruct (context state) as [c|]; [|apply kept_refl].
  destruct (match activeContext (yak w) with Some _ => _ | None => _ end); [apply kept_refl|].
  destruct (run _ _) as [[d|e|] w1] eqn:E1; cbn; apply run_kept' in E1;
    assert (H1 : kept w w1)
      by (refine (kept_trans _ _ _ _ E1); by apply kept_same_heap);
    [|done..].
  assert (H2 : kept w (install topic newTopic d k w1))
    by (eapply kept_trans; [exact H1|apply kept_install]).
  destruct (afterInit newTopic) as [f|]; [|done].
  destruct (run _ _) as [[d'|e|] w3] eqn:E3; cbn; apply run_kept' in E3;
    refine (kept_trans _ _ _ H2 (kept_trans _ _ _ _ E3)); by apply kept_same_heap.
Qed.

Lemma exitTopic_kept topic state args w :
  kept w (exitTopic run topic state args w).2.
Proof.
  rewrite exitTopic_eq.
  destruct (context state) as [c|]; [|apply kept_refl].
  case_bool_decide; [apply kept_refl|]. cbn zeta.
  destruct (heap w !! c) as [ctx|]; [|by apply kept_same_heap].
  destruct (cb ctx) as [f|]; [|by apply kept_same_heap].
  destruct (run _ _) as [o w'] eqn:E. cbn. apply run_kept' in E.
  refine (kept_trans _ _ _ _ E). by apply kept_same_heap.
Qed.

Lemma runHook_kept hook state message w :
  kept w (runHook run hook state message w).2.
Proof.
  unfold runHook. apply bind_kept; [by apply kept_same_heap|]. intros _ w1.
  apply bind_kept; [apply run_kept|]. intros pr w2.
  assert (kept w2 ((log (EvHandler (hname hook)) ;;
            handlerResult <- run (handler hook state pr) ;;
            ret (true, handlerResult)) w2).2).
  { apply bind_kept; [by apply kept_same_heap|]. intros _ w3.
    apply bind_kept; [apply run_kept|]. intros. apply kept_refl. }
  destruct pr; first [apply kept_refl | done].
Qed.

Lemma localLoop_kept hs state message w :
  kept w (localLoop run hs state message w).2.
Proof.
  revert w. induction hs as [|hook rest IH]; intros w; [apply kept_refl|].
  cbn [localLoop]. apply bind_kept; [apply runHook_kept|]. intros res w1.
  destruct res.1; [apply kept_refl|apply IH].
Qed.

Lemma globalLoop_kept hs context globalContext session message w :
  kept w (globalLoop run hs context globalContext session message w).2.
Proof.
  revert w. induction hs as [|hook rest IH]; intros w; [apply kept_refl|].
  cbn [globalLoop]. apply bind_kept.
  { rewrite mayRun_pure. apply kept_refl. }
  intros [] w1; [|apply IH].
  apply bind_kept; [apply runHook_kept|]. intros res w2.
  destruct res.1; [apply kept_refl|apply IH].
Qed.

Lemma dispatch_kept session message globalTopic globalContext w :
  kept w (dispatch run session message globalTopic globalContext w).2.
Proof.
  unfold dispatch. apply bind_kept; [apply kept_refl|]. intros context w1.
  apply bind_kept.
  - destruct context as [r|]; [|apply kept_refl].
    apply bind_kept.
    { unfold deref. destruct (heap w1 !! r); apply kept_refl. }
    intros c w2. destruct (topic c) as [t|]; [|apply kept_refl].
    apply bind_kept; [apply kept_refl|]. intros ts w3.
    destruct (findTopic (name t) ts); [apply localLoop_kept|apply kept_refl].
  - intros res w2. destruct res.1; [apply kept_refl|].
    destruct globalTopic; [apply globalLoop_kept|apply kept_refl].
Qed.

Lemma processMessage_kept session message globalTopic globalContext w :
  kept w (processMessage run session message globalTopic globalContext w).2.
Proof.
  unfold processMessage. apply bind_kept; [by apply kept_same_heap|]. intros _ w1.
  apply bind_kept; [apply dispatch_kept|]. intros. apply kept_refl.
Qed.
End Kept.

Lemma runProg_kept n p w : kept w (runProg n p w).2.
Proof.
  revert p w. induction n as [|n IH]; intros p w; [apply kept_refl|].
  destruct p as [v|e|t st nt args k0 k|t st args k|st l k|st l k|k|body catch];
    cbn [runProg].
  - apply kept_refl.
  - apply kept_refl.
  - apply bind_kept; [by apply enterTopic_kept|]. intros; apply IH.
  - apply bind_kept; [by apply exitTopic_kept|]. intros; apply IH.
  - apply bind_kept; [apply disableHooksExcept_kept|]. intros; apply IH.
  - apply bind_kept; [apply disableHooks_kept|]. intros; apply IH.
  - apply bind_kept; [apply kept_refl|]. intros; apply IH.
  - pose proof (IH body w) as H.
    destruct (runProg n body w) as [[r|e|] w1]; cbn in *; [done| |done].
    eapply kept_trans; [exact H|apply IH].
Qed.

(** X10.  Context objects are never freed or rewritten.  Whatever the
    user programs do, and however the call ends, every context that
    existed before a call of [enterTopic], [exitTopic] or
    [processMessage], or before a user program runs, exists after it at
    the same address with the same [data], [topic], [parentTopic] and
    continuation.  Only its two hook lists can have changed. *)
Theorem context_fields_are_never_rewritten
    n topic state newTopic args k session message gt gc p w :
  kept w (enterTopic (runProg n) topic state newTopic args k w).2
  ∧ kept w (exitTopic (runProg n) topic state args w).2
  ∧ kept w (processMessage (runProg n) session message gt gc w).2
  ∧ kept w (runProg n p w).2.
Proof.
  split_and!.
  - apply enterTopic_kept, runProg_kept.
  - apply exitTopic_kept, runProg_kept.
  - apply processMessage_kept, runProg_kept.
  - apply runProg_kept.
Qed.

Lemma runProg_any n p w : Evolves anyEvent w (runProg n p w).2.
Proof. by apply runProg_evolves'. Qed.

Lemma processMessage_any n session message gt gc w :
  Evolves anyEvent w (processMessage (runProg n) session message gt gc w).2.
Proof.
  eapply Evolves_trans; [|apply (processMessage_trace anyEvent (runProg n) (runProg_any n));
                           by intros].
  by apply Evolves_logged.
Qed.

(** X11.  A well-formed stack (no context twice, every entry an
    allocated object) stays well-formed across [enterTopic],
    [exitTopic], [processMessage] and any user program, however the call
    ends. *)
Theorem stack_stays_well_formed n topic state newTopic args k session message gt gc p w :
  valid w →
  valid (enterTopic (runProg n) topic state newTopic args k w).2
  ∧ valid (exitTopic (runProg n) topic state args w).2
  ∧ valid (processMessage (runProg n) session message gt gc w).2
  ∧ valid (runProg n p w).2.
Proof.
  intros Hv. split_and!.
  - by apply (enterTopic_evolves anyEvent (runProg n) (runProg_any n)).
  - by apply (exitTopic_evolves anyEvent (runProg n) (runProg_any n)).
  - by apply processMessage_any.
  - by apply runProg_any.
Qed.

Lemma stack_stays_well_formed_witness :
  valid (enterTopic (runProg 5) None {| context := Some 1; session := Demo.user |}
           Demo.eager VNull None Demo.nested).2
  ∧ valid (exitTopic (runProg 5) None {| context := Some 1; session := Demo.user |}
             VNull Demo.nested).2
  ∧ valid (processMessage (runProg 5) Demo.user (Demo.text "hello") None 0 Demo.nested).2
  ∧ valid (runProg 5 (PExitTopic None {| context := Some 1; session := Demo.user |} VNull PRet)
             Demo.nested).2.
Proof.
  apply (stack_stays_well_formed 5 None {| context := Some 1; session := Demo.user |}
           Demo.eager VNull None Demo.user (Demo.text "hello") None 0
           (PExitTopic None {| context := Some 1; session := Demo.user |} VNull PRet)
           Demo.nested).
  exact valid_nested.
Defined.

(** X12.  A context that has left the stack never comes back: an
    object that exists and is not on the stack before a call of
    [enterTopic], [exitTopic] or [processMessage], or before a user
    program runs, is not on the stack after it.  What the engine pushes
    is always a new object. *)
Theorem exited_context_never_returns
    n topic state newTopic args k session message gt gc p w r :
  r < length (heap w) → r ∉ contexts (yak w) →
  (r ∉ contexts (yak (enterTopic (runProg n) topic state newTopic args k w).2))
  ∧ (r ∉ contexts (yak (exitTopic (runProg n) topic state args w).2))
  ∧ (r ∉ contexts (yak (processMessage (runProg n) session message gt gc w).2))
  ∧ (r ∉ contexts (yak (runProg n p w).2)).
Proof.
  intros Hr Hn. split_and!; intros Hin; apply Hn.
  - by eapply (ev_old _ _ _ (enterTopic_evolves anyEvent (runProg n) (runProg_any n)
                          topic state newTopic args k w I I)).
  - by eapply (ev_old _ _ _ (exitTopic_evolves anyEvent (runProg n) (runProg_any n)
                          topic state args w (λ _, I))).
  - by eapply (ev_old _ _ _ (processMessage_any n session message gt gc w)).
  - by eapply (ev_old _ _ _ (runProg_any n p w)).
Qed.

Lemma exited_context_never_returns_witness :
  (1 ∉ contexts (yak (enterTopic (runProg 5) None {| context := Some 0; session := Demo.user |}
                        Demo.sub VNull None Demo.talking).2))
  ∧ (1 ∉ contexts (yak (exitTopic (runProg 5) None {| context := Some 0; session := Demo.user |}
                          VNull Demo.talking).2))
  ∧ (1 ∉ contexts (yak (processMessage (runProg 5) Demo.user (Demo.text "hello")
                          (Some Demo.globalTopic) 1 Demo.talking).2))
  ∧ (1 ∉ contexts (yak (runProg 5 (PRet VNull) Demo.talking).2)).
Proof.
  apply (exited_context_never_returns 5 None {| context := Some 0; session := Demo.user |}
           Demo.sub VNull None Demo.user (Demo.text "hello") (Some Demo.globalTopic) 1
           (PRet VNull) Demo.talking 1).
  - cbn. lia.
  - intros H%list_elem_of_singleton. discriminate H.
Defined.

(** X13.  A continuation runs only as its context leaves.  If, during
    a dispatch from a well-formed stack, the continuation of a context
    [r] ran, then [r] is not on the stack when the dispatch ends; and if
    [r] existed before the dispatch, it was on the stack then. *)
Theorem continuation_runs_only_when_its_context_leaves
    n session message gt gc w evs r :
  valid w →
  trace (processMessage (runProg n) session message gt gc w).2 = trace w ++ evs →
  EvCb r ∈ evs →
  (r ∉ contexts (yak (processMessage (runProg n) session message gt gc w).2))
  ∧ (r < length (heap w) → r ∈ contexts (yak w)).
Proof.
  intros Hv Ht Hin.
  destruct (processMessage_any n session message gt gc w)
    as [_ _ _ _ _ _ (evs' & Ht' & _ & Hcb) _].
  rewrite Ht in Ht'. apply app_inv_head in Ht'. subst evs'.
  destruct (Hcb r Hin) as [Hold Hnew]. split; [by apply Hnew|done].
Qed.

Lemma continuation_runs_only_when_its_context_leaves_witness :
  (1 ∉ contexts (yak (processMessage (runProg 5) Demo.user (Demo.text "bye")
                        (Some Demo.globalTopic) 2 Scenes.parting).2))
  ∧ (1 < length (heap Scenes.parting) → 1 ∈ contexts (yak Scenes.parting)).
Proof.
  apply (continuation_runs_only_when_its_context_leaves 5 Demo.user (Demo.text "bye")
           (Some Demo.globalTopic) 2 Scenes.parting
           [EvProcess (Demo.text "bye"); EvParse "bye"; EvHandler "bye"; EvCb 1] 1).
  - exact valid_parting.
  - vm_compute. reflexivity.
  - do 3 (apply elem_of_cons; right). apply elem_of_cons. by left.
Defined.

(** ** Dispatch, further *)

(** X14.  A dispatch needs the topic of the active context in the
    registry.  When the active context has no topic, or its topic's name
    is not the name of a registered topic, [processMessage] fails with a
    TypeError before any hook is tried, the global hooks included. *)
Theorem unregistered_topic_blocks_dispatch {Code} (run : Code → M Code Value)
    session message globalTopic globalContext w r c :
  activeContext (yak w) = Some r →
  heap w !! r = Some c →
  (∀ t, topic c = Some t → findTopic (name t) (topics (yak w)) = None) →
  processMessage run session message globalTopic globalContext w
    = (Throw "TypeError", logged (EvProcess message) w).
Proof.
  intros Hr Hc Ht.
  change (processMessage run session message globalTopic globalContext w)
    with (bind (dispatch run session message globalTopic globalContext)
            (λ res, ret (normalize res.2)) (logged (EvProcess message) w)).
  unfold bind at 1. unfold dispatch, bind, gets, deref. cbn.
  rewrite Hr. cbn. rewrite Hc. cbn. destruct (topic c) as [t|]; [|done].
  cbn. by rewrite (Ht t eq_refl).
Qed.

Lemma unregistered_topic_blocks_dispatch_witness :
  processMessage (runProg 5) Demo.user (Demo.text "hello") (Some Demo.globalTopic) 0
    Scenes.astray
  = (Throw "TypeError", logged (EvProcess (Demo.text "hello")) Scenes.astray).
Proof.
  apply (unregistered_topic_blocks_dispatch (runProg 5) Demo.user (Demo.text "hello")
           (Some Demo.globalTopic) 0 Scenes.astray 0 Demo.ctxGlobal);
    [reflexivity|reflexivity|].
  intros t Ht. injection Ht as <-. reflexivity.
Defined.

(** X15.  Without a topic named "global", a dispatch never ends
    unhandled: it returns only when a local hook handled the message,
    and otherwise fails.  With no active context either,
    [processMessage] fails with a TypeError at once, no hook tried. *)
Theorem without_global_topic_unhandled_throws {Code} (run : Code → M Code Value)
    session message globalContext w :
  (∀ res w', dispatch run session message None globalContext w = (Ok res, w') →
     res.1 = true)
  ∧ (activeContext (yak w) = None →
     processMessage run session message None globalContext w
       = (Throw "TypeError", logged (EvProcess message) w)).
Proof.
  split.
  - intros res w'. unfold dispatch.
    intros (context & w0 & H0 & (r1 & w1 & H1 & H2)%bind_Ok_inv)%bind_Ok_inv.
    destruct r1.1 eqn:Hr1; [|done]. by injection H2 as <- <-.
  - intros Hnone.
    change (processMessage run session message None globalContext w)
      with (bind (dispatch run session message None globalContext)
              (λ res, ret (normalize res.2)) (logged (EvProcess message) w)).
    unfold bind at 1. unfold dispatch, bind, gets. cbn.
    by rewrite Hnone.
Qed.




(** ** The session handler, further *)

(** X17.  One message, three strategies.  Called with a single message
    that is not an array, or with the one-element batch that holds it, a
    handler configured with "last", "first" or "single" does the same
    thing: same outcome, same result, same session, same store. *)
Theorem one_message_same_under_last_first_single {Code} (run : Code → M Code Value)
    fb web allTopics gid gty (mo1 mo2 : MessageOptions Code) session m w :
  oneAtATime (strategy mo1) →
  oneAtATime (strategy mo2) →
  (∀ elems, m ≠ VArr elems) →
  initYak run fb web allTopics
    {| getSessionId := gid; getSessionType := gty; messageOptions := Some mo1 |} session m w
  = initYak run fb web allTopics
      {| getSessionId := gid; getSessionType := gty; messageOptions := Some mo2 |}
      session (VArr [m]) w.
Proof.
  intros H1 H2 Hm.
  assert (Hb : ∀ mo : MessageOptions Code, oneAtATime (strategy mo) →
    ∀ gt gc w0, processBatch run fb web mo [m] session gt gc w0 =
      (f <- formatter fb web session ;;
       processMessage run session (parseIncomingMessage f m) gt gc) w0).
  { intros mo Hs gt gc w0. unfold processBatch.
    destruct Hs as [-> | [-> | ->]]; cbn; [done|done|].
    unfold bind, ret. destruct (formatter fb web session w0) as [[f|e|] w1]; [|done..].
    by destruct (processMessage run session _ gt gc w1) as [[]]. }
  unfold initYak. cbn [messageOptions getSessionId getSessionType].
  replace (asArray m) with [m] by (destruct m; try done; by destruct (Hm elems)).
  cbn [asArray]. unfold bind.
  destruct (libSession_get _ _ w) as [[sv|e|] w1]; [|done..].
  destruct (modify _ w1) as [[u|e|] w2]; [|done..].
  destruct (alloc _ w2) as [[gc|e|] w3]; [|done..].
  destruct (bootstrap run session _ gc w3) as [[u'|e|] w4]; [|done..].
  by rewrite (Hb mo1 H1), (Hb mo2 H2).
Qed.

Lemma one_message_same_under_last_first_single_witness :
  initYak (runProg 5) Demo.plain Demo.plain [Demo.mainTopic]
    {| getSessionId := None; getSessionType := None; messageOptions := Some Scenes.lastOnly |}
    Demo.user (Demo.text "hello") Demo.w0
  = initYak (runProg 5) Demo.plain Demo.plain [Demo.mainTopic]
      {| getSessionId := None; getSessionType := None; messageOptions := Some Demo.single |}
      Demo.user (VArr [Demo.text "hello"]) Demo.w0.
Proof.
  apply (one_message_same_under_last_first_single (runProg 5) Demo.plain Demo.plain
           [Demo.mainTopic] None None Scenes.lastOnly Demo.single Demo.user
           (Demo.text "hello") Demo.w0).
  - left. reflexivity.
  - right. right. reflexivity.
  - intros elems H. discriminate H.
Defined.

Lemma formatter_pure {Code} fb web session (w : World Code) :
  (formatter fb web session w).2 = w.
Proof. unfold formatter. by destruct (formatters fb web (stype session)). Qed.

Lemma parseAll_pure {Code} fb web ms session (w : World Code) :
  (parseAll fb web ms session w).2 = w.
Proof.
  induction ms as [|m ms IH]; [done|]. cbn. unfold bind, formatter.
  destruct (formatters fb web (stype session)); [|done]. cbn.
  destruct (parseAll fb web ms session w) as [[]]; cbn in *; by subst.
Qed.

Lemma singleLoop_any n fb web ms r0 session gt gc w :
  Evolves anyEvent w (singleLoop (runProg n) fb web ms r0 session gt gc w).2.
Proof.
  revert r0 w. induction ms as [|x ms IH]; intros r0 w; cbn [singleLoop].
  - apply Evolves_refl.
  - apply bind_evolves.
    + rewrite formatter_pure. apply Evolves_refl.
    + intros f w1. apply bind_evolves; [apply processMessage_any|]. intros; apply IH.
Qed.

Lemma processBatch_any n fb web mo messages session gt gc w :
  Evolves anyEvent w (processBatch (runProg n) fb web mo messages session gt gc w).2.
Proof.
  assert (Hone : ∀ message w0,
    Evolves anyEvent w0 ((f <- formatter fb web session ;;
              processMessage (runProg n) session (message f) gt gc) w0).2).
  { intros message w0. apply bind_evolves.
    - rewrite formatter_pure. apply Evolves_refl.
    - intros; apply processMessage_any. }
  unfold processBatch.
  destruct (String.eqb (strategy mo) "last"); [apply (Hone (λ f, _))|].
  destruct (String.eqb (strategy mo) "first"); [apply (Hone (λ f, _))|].
  destruct (String.eqb (strategy mo) "single"); [apply singleLoop_any|].
  destruct (String.eqb (strategy mo) "merge"); [apply (Hone (λ f, _))|].
  destruct (String.eqb (strategy mo) "custom"); [|apply Evolves_refl].
  apply bind_evolves; [rewrite parseAll_pure; apply Evolves_refl|].
  intros ps w1. destruct (messageParser mo) as [parser|]; [|apply Evolves_refl].
  apply bind_evolves; [apply runProg_any|]. intros; apply processMessage_any.
Qed.

(** What [bootstrap] leaves alone, the [virgin] flag apart. *)
Lemma bootstrap_any n session gt gc w :
  Evolves anyEvent (setYak (setVirgin false (yak w)) w)
    (bootstrap (runProg n) session gt gc w).2.
Proof.
  unfold bootstrap, bind, gets, modify. cbn.
  destruct (virgin (yak w)) eqn:Hv; cbn.
  - destruct (findTopic "main" (topics (yak w))) as [mainTopic|]; [|apply Evolves_refl].
    pose proof (enterTopic_evolves anyEvent (runProg n) (runProg_any n) gt
                {| context := Some gc; session := session |} mainTopic VUndefined None
                (setYak (setVirgin false (yak w)) w) I I) as H.
    by destruct (enterTopic _ _ _ _ _ _ _) as [[]].
  - replace (setYak _ w) with w; [apply Evolves_refl|].
    destruct w as [h [i t c v ts] d tr]. cbn in *. by subst.
Qed.

(** The handler, step by step. *)
Lemma initYak_shape n fb web allTopics options session messages w :
  let key := match getSessionId options with Some f => f session | None => sid session end in
  let registry := filter (λ t, name t ≠ "global") allTopics in
  let gt := findTopic "global" allTopics in
  let mo := match messageOptions options with
            | Some mo => mo | None => {| strategy := "last"; messageParser := None |} end in
  let y0 := match db w !! key with
            | Some s => setTopics registry s
            | None => {| id := key;
                         type := match getSessionType options with
                                 | Some f => f session | None => stype session end;
                         contexts := []; virgin := true; topics := registry |}
            end in
  let w1 := setHeap (heap w ++ [ {| data := VUndefined; topic := gt; parentTopic := None;
                                    activeHooks := []; disabledHooks := []; cb := None |} ])
              (setYak y0 w) in
  initYak (runProg n) fb web allTopics options session messages w =
  match bootstrap (runProg n) session gt (length (heap w)) w1 with
  | (Ok _, w2) =>
      match processBatch (runProg n) fb web mo (asArray messages) session gt (length (heap w)) w2
      with
      | (Ok results, w3) => (Ok results, setDb (<[id (yak w3) := yak w3]> (db w3)) w3)
      | (Throw e, w3) => (Throw e, w3)
      | (Diverge, w3) => (Diverge, w3)
      end
  | (Throw e, w2) => (Throw e, w2)
  | (Diverge, w2) => (Diverge, w2)
  end.
Proof.
  intros key registry gt mo y0 w1.
  unfold initYak, bind, libSession_get, libSession_save, gets, modify, alloc, ret. cbn.
  fold registry gt mo.
  replace (match getSessionId options with Some f => f | None => sid end session)
    with key by (unfold key; by destruct (getSessionId options)).
  replace (match getSessionType options with Some f => f | None => stype end session)
    with (match getSessionType options with Some f => f session | None => stype session end)
    by (by destruct (getSessionType options)).
  fold y0. fold w1.
  destruct (bootstrap (runProg n) session gt (length (heap w)) w1) as [[[]|e|] w2]; [|done..].
  by destruct (processBatch (runProg n) fb web mo (asArray messages) session gt
                 (length (heap w)) w2) as [[results|e|] w3].
Qed.

(** What a call of the handler keeps, from the world in which the
    session is loaded, no longer virgin, to the world it ends in before
    the store is written. *)
Lemma initYak_frame n fb web allTopics options session messages w :
  let key := match getSessionId options with Some f => f session | None => sid session end in
  let registry := filter (λ t, name t ≠ "global") allTopics in
  let gt := findTopic "global" allTopics in
  let y0 := match db w !! key with
            | Some s => setVirgin false (setTopics registry s)
            | None => {| id := key;
                         type := match getSessionType options with
                                 | Some f => f session | None => stype session end;
                         contexts := []; virgin := false; topics := registry |}
            end in
  let w1 := setHeap (heap w ++ [ {| data := VUndefined; topic := gt; parentTopic := None;
                                    activeHooks := []; disabledHooks := []; cb := None |} ])
              (setYak y0 w) in
  let r := initYak (runProg n) fb web allTopics options session messages w in
  ∃ w3, Evolves anyEvent w1 w3
    ∧ match r.1 with
      | Ok _ => r.2 = setDb (<[id (yak w3) := yak w3]> (db w3)) w3
      | _ => r.2 = w3
      end.
Proof.
  intros key registry gt y0 w1 r. subst r. rewrite initYak_shape.
  fold key registry gt.
  set (w1' := setHeap _ (setYak _ w)).
  pose proof (bootstrap_any n session gt (length (heap w)) w1') as H2.
  replace (setYak _ w1') with w1 in H2.
  2: { unfold w1, w1', y0. cbn. by destruct (db w !! key). }
  destruct (bootstrap (runProg n) session gt _ w1') as [[[]|e|] w2]; cbn in *;
    [|by exists w2..].
  pose proof (processBatch_any n fb web
      (match messageOptions options with
       | Some mo => mo | None => {| strategy := "last"; messageParser := None |} end)
      (asArray messages) session gt (length (heap w)) w2) as H3.
  destruct (processBatch (runProg n) fb web _ _ session _ _ w2) as [[results|e|] w3];
    cbn in *; exists w3; (split; [by eapply Evolves_trans|done]).
Qed.








(** X21.  Stored stacks stay well-formed.  If every stored session has
    a well-formed stack (no context twice, every entry an allocated
    object), then after a call of the handler, however it ends, every
    stored session still has one, and so has the session the call worked
    on.  The empty store satisfies this, so it holds after any number of
    calls. *)
Theorem stored_stacks_stay_well_formed n fb web allTopics options session messages w :
  wellStored w →
  let r := initYak (runProg n) fb web allTopics options session messages w in
  wellStored r.2 ∧ valid r.2.
Proof.
  intros Hw r.
  destruct (initYak_frame n fb web allTopics options session messages w)
    as (w3 & [Hh _ _ _ _ Hd _ Hval] & Hr).
  fold r in Hr. cbn in Hh, Hd, Hval. rewrite length_app in Hh. cbn in Hh.
  assert (Hv3 : valid w3).
  { apply Hval. unfold valid. cbn. rewrite length_app. cbn.
    destruct (db w !! _) as [s|] eqn:Hs; cbn.
    - destruct (Hw _ _ Hs) as [? Hf]. split; [done|].
      eapply Forall_impl; [exact Hf|]. cbn. lia.
    - split; [constructor|constructor]. }
  assert (Hold : ∀ k s, db w !! k = Some s →
            NoDup (contexts s) ∧ Forall (λ r, r < length (heap w3)) (contexts s)).
  { intros k s Hs. destruct (Hw _ _ Hs) as [? Hf]. split; [done|].
    eapply Forall_impl; [exact Hf|]. cbn. lia. }
  destruct r.1; rewrite Hr.
  - split; [|done]. intros k s. cbn. rewrite Hd.
    intros [[<- <-]|[_ Hs]]%lookup_insert_Some; [exact Hv3|by eapply Hold].
  - split; [|done]. intros k s. rewrite Hd. apply Hold.
  - split; [|done]. intros k s. rewrite Hd. apply Hold.
Qed.

Lemma wellStored_stored : wellStored Scenes.stored.
Proof.
  intros k s H. cbn in H. apply lookup_singleton_Some in H as [_ <-].
  split; [apply NoDup_singleton|repeat constructor].
Defined.

Lemma stored_stacks_stay_well_formed_witness :
  wellStored (Demo.bot 5 [Demo.mainTopic] Demo.defaults Demo.user (Demo.text "hello")
                Scenes.stored).2
  ∧ valid (Demo.bot 5 [Demo.mainTopic] Demo.defaults Demo.user (Demo.text "hello")
             Scenes.stored).2.
Proof.
  apply (stored_stacks_stay_well_formed 5 Demo.plain Demo.plain [Demo.mainTopic]
           Demo.defaults Demo.user (Demo.text "hello") Scenes.stored).
  exact wellStored_stored.
Defined.
